(** * Parallel quicksort (lecs/07_parallelism/parallel_quicksort.cpp)

    A shallow embedding of [quicksort_seq] and [quicksort_parallel] and the
    properties of the sorting core: partition invariant, sortedness and
    permutation, the sequential fallback, resource counts (comparisons,
    swaps, spawned tasks) and the behaviour under a throwing comparison.

    Conventions of the embedding.
    - The vector [arr] is a [list T]; [arr[i]] is list lookup at
      [Z.to_nat i], and an index outside the vector (undefined behaviour of
      [operator[]]) is the outcome [Fault].
    - [int] values are integers of [Z], and [(right - left) / 2] is the
      truncating division [Z.quot]. Signed overflow has no defined
      behaviour to model: the embedding describes the executions without
      it. A run without [Fault] only computes [left - 1 .. right + 1] with
      [0 <= left] and [right < arr.size()], and depths up to [MAX_DEPTH].
      The one conversion between integer types, of [vec.size() - 1] from
      [size_t] to [int] in the call of line 142, is defined behaviour and is
      modelled ([last_index]): up to [2^31] elements it is the index of the
      last element, beyond that it wraps.
    - The element type's [operator<] and [operator<=] are two functions that
      either return a [bool] or throw an exception of type [E].
    - Every run also yields the list of the operations it executed
      ([event]s, in execution order), which is what the resource properties
      count.
    - Recursion is bounded by a [fuel] that limits the nesting of calls;
      running out of it is the outcome [Timeout].
    - [std::async(std::launch::async, ...)] is modelled on the schedule in
      which the spawned task runs to completion before the spawning thread
      continues; the outcome of the task is stored in the future. The two
      branches of a fork access disjoint index ranges ([branches_disjoint]),
      which is what makes one schedule representative of all. Starting the
      thread is assumed to succeed. *)

From stdpp Require Import base numbers list sorting.

#[local] Open Scope Z_scope.

(** ** Events, outcomes and the execution monad *)

Inductive event : Type :=
  | EvLess (i j : Z)                (* [arr[i] < arr[j]] was evaluated *)
  | EvLeq (j : Z)                   (* [arr[j] <= pivot] was evaluated *)
  | EvSwap (i j : Z)                (* [std::swap(arr[i], arr[j])] *)
  | EvPivot (left right : Z)        (* median-of-three entered on a range *)
  | EvSpawn (left right depth : Z)  (* [std::async] launched a task *)
  | EvJoin (left right depth : Z).  (* that task's future was waited for *)

Inductive outcome (E X : Type) : Type :=
  | Done (x : X)      (* normal return *)
  | Raise (e : E)     (* an exception propagates *)
  | Fault             (* out-of-range element access *)
  | Timeout.          (* fuel exhausted *)
Arguments Done {E X} x.
Arguments Raise {E X} e.
Arguments Fault {E X}.
Arguments Timeout {E X}.

Record result (T E X : Type) : Type := Res {
  res_arr : list T;
  res_trace : list event;
  res_out : outcome E X
}.
Arguments Res {T E X} _ _ _.
Arguments res_arr {T E X} _.
Arguments res_trace {T E X} _.
Arguments res_out {T E X} _.

Definition M (T E X : Type) : Type := list T → result T E X.

(** The two constants of [quicksort_parallel] (lines 52-53), as a
    configuration. *)
Record config : Type := Config {
  SEQUENTIAL_THRESHOLD : Z;
  MAX_DEPTH : Z
}.

Definition source_config : config :=
  {| SEQUENTIAL_THRESHOLD := 10000; MAX_DEPTH := 4 |}.

Definition valid_config (cfg : config) : Prop :=
  0 ≤ SEQUENTIAL_THRESHOLD cfg ∧ 0 ≤ MAX_DEPTH cfg.

(** The value of an integer after conversion to [int] (32 bits, two's
    complement). *)
Definition to_int (z : Z) : Z :=
  (z + 2147483648) mod 4294967296 - 2147483648.

(** The argument [vec_parallel.size() - 1] of line 142: the difference is
    computed in [size_t] (64 bits, unsigned) and converted to the [int]
    parameter [right]. *)
Definition last_index {T} (a : list T) : Z :=
  to_int ((Z.of_nat (length a) - 1) mod 18446744073709551616).

(** The continuation of a computation that stopped with outcome [o]. *)
Definition then_run {T E X Y} (r : result T E X) (f : X → M T E Y) : result T E Y :=
  match res_out r with
  | Done x =>
      let r' := f x (res_arr r) in
      Res (res_arr r') (res_trace r ++ res_trace r') (res_out r')
  | Raise e => Res (res_arr r) (res_trace r) (Raise e)
  | Fault => Res (res_arr r) (res_trace r) Fault
  | Timeout => Res (res_arr r) (res_trace r) Timeout
  end.

#[global] Instance M_ret {T E} : MRet (M T E) := λ X x a, Res a [] (Done x).
#[global] Instance M_bind {T E} : MBind (M T E) := λ X Y f m a, then_run (m a) f.

(** ** The operations on the vector and the two sorts *)

Section Machine.
Context {T E : Type}.

Definition raise {X} (e : E) : M T E X := λ a, Res a [] (Raise e).
Definition timeout {X} : M T E X := λ a, Res a [] Timeout.
Definition emit (ev : event) : M T E unit := λ a, Res a [ev] (Done tt).

(** [arr[i]] read. *)
Definition load (i : Z) : M T E T := λ a,
  if 0 <=? i then
    match a !! Z.to_nat i with
    | Some x => Res a [] (Done x)
    | None => Res a [] Fault
    end
  else Res a [] Fault.

(** [arr[i] = x]. *)
Definition store (i : Z) (x : T) : M T E unit := λ a,
  if (0 <=? i) && (i <? Z.of_nat (length a)) then
    Res (<[Z.to_nat i := x]> a) [] (Done tt)
  else Res a [] Fault.

(** [std::swap(arr[i], arr[j])]. *)
Definition swap (i j : Z) : M T E unit :=
  x ← load i; y ← load j; store i y;; store j x;; emit (EvSwap i j).

(** The value of a comparison that may throw. *)
Definition eval {X} (v : E + X) : M T E X :=
  match v with
  | inl e => raise e
  | inr x => mret x
  end.

Definition when (b : bool) (m : M T E unit) : M T E unit :=
  if b then m else mret tt.

(** [for (int j = lo; j < hi; j++) acc = body j acc]. *)
Fixpoint for_loop {S} (n : nat) (j : Z) (body : Z → S → M T E S) (acc : S)
    : M T E S :=
  match n with
  | O => mret acc
  | Datatypes.S n' => acc' ← body j acc; for_loop n' (j + 1) body acc'
  end.

Definition for_range {S} (lo hi : Z) (body : Z → S → M T E S) (acc : S)
    : M T E S :=
  for_loop (Z.to_nat (hi - lo)) lo body acc.

(** The future of a task of type [void]: the exception it stored, if any. *)
Definition future : Type := option E.

(** [std::async(std::launch::async, task)]: the task runs, and an exception
    leaving it is captured in the shared state of the future. *)
Definition async (ev : event) (task : M T E unit) : M T E future := λ a,
  let r := task a in
  match res_out r with
  | Done _ => Res (res_arr r) (ev :: res_trace r) (Done None)
  | Raise e => Res (res_arr r) (ev :: res_trace r) (Done (Some e))
  | Fault => Res (res_arr r) (ev :: res_trace r) Fault
  | Timeout => Res (res_arr r) (ev :: res_trace r) Timeout
  end.

(** [fut.wait()]: blocks until the task has finished; unlike [get()] it does
    not rethrow the stored exception. *)
Definition wait (ev : event) (fut : future) : M T E unit := emit ev.

(** The destructor of a future obtained from [std::async] blocks until the
    task has finished; it runs when an exception unwinds the frame before
    [wait()] was reached. *)
Definition unwinding {X} (ev : event) (body : M T E X) : M T E X := λ a,
  let r := body a in
  match res_out r with
  | Raise e => Res (res_arr r) (res_trace r ++ [ev]) (Raise e)
  | _ => r
  end.

Variable less : T → T → E + bool.   (* [operator<] of [T] *)
Variable leq : T → T → E + bool.    (* [operator<=] of [T] *)

(** [arr[i] < arr[j]]. *)
Definition less_at (i j : Z) : M T E bool :=
  x ← load i; y ← load j; emit (EvLess i j);; eval (less x y).

(** [arr[j] <= pivot]. *)
Definition leq_pivot (j : Z) (pivot : T) : M T E bool :=
  x ← load j; emit (EvLeq j);; eval (leq x pivot).

(** Lines 17-28 and 60-71: median of three, the pivot ends at [right]. *)
Definition choose_pivot (left right : Z) : M T E T :=
  emit (EvPivot left right);;
  let mid := left + (right - left) `quot` 2 in
  b ← less_at mid left; when b (swap left mid);;
  b ← less_at right left; when b (swap left right);;
  b ← less_at mid right; when b (swap mid right);;
  load right.

(** Lines 30-39 and 73-82: the scan and the placement of the pivot. *)
Definition partition (left right : Z) (pivot : T) : M T E Z :=
  i ← for_range left right
        (λ j i : Z, b ← leq_pivot j pivot;
                    if b : bool then swap (i + 1) j;; mret (i + 1)
                    else mret i)
        (left - 1);
  let i := i + 1 in
  swap i right;;
  mret i.

(** Lines 11-44. *)
Fixpoint quicksort_seq (fuel : nat) (left right : Z) : M T E unit :=
  match fuel with
  | O => timeout
  | Datatypes.S fuel' =>
      if left >=? right then mret tt
      else
        pivot ← choose_pivot left right;
        i ← partition left right pivot;
        quicksort_seq fuel' left (i - 1);;
        quicksort_seq fuel' (i + 1) right
  end.

(** Lines 47-96; the two constants of lines 52-53 are the configuration. *)
Fixpoint quicksort_parallel (cfg : config) (fuel : nat)
    (left right depth : Z) : M T E unit :=
  match fuel with
  | O => timeout
  | Datatypes.S fuel' =>
      if (right - left <=? SEQUENTIAL_THRESHOLD cfg)
         || (depth >=? MAX_DEPTH cfg)
      then quicksort_seq fuel' left right
      else
        pivot ← choose_pivot left right;
        i ← partition left right pivot;
        left_future ←
          async (EvSpawn left (i - 1) (depth + 1))
                (quicksort_parallel cfg fuel' left (i - 1) (depth + 1));
        unwinding (EvJoin left (i - 1) (depth + 1))
          (quicksort_parallel cfg fuel' (i + 1) right (depth + 1);;
           wait (EvJoin left (i - 1) (depth + 1)) left_future)
  end.

(** Line 142: [quicksort_parallel(vec, 0, vec.size() - 1)], [depth = 0]. *)
Definition parallel_sort (cfg : config) (fuel : nat) : M T E unit := λ a,
  quicksort_parallel cfg fuel 0 (last_index a) 0 a.

End Machine.

Arguments future : clear implicits.

(** ** Specifications of runs *)

Section Assertions.
Context {T E : Type}.

(** [wp m a Q R]: started on the array [a], the computation [m] either
    returns a value and an array that satisfy [Q], or throws an exception
    that satisfies [R]; it neither faults nor runs out of fuel. *)
Definition wp {X} (m : M T E X) (a : list T)
    (Q : X → list T → Prop) (R : E → Prop) : Prop :=
  match res_out (m a) with
  | Done x => Q x (res_arr (m a))
  | Raise e => R e
  | Fault | Timeout => False
  end.

(** The array [a] is [pre ++ seg ++ post] and [seg] occupies exactly the
    indices [left .. right]. *)
Definition covers (a pre seg post : list T) (left right : Z) : Prop :=
  a = pre ++ seg ++ post
  ∧ Z.of_nat (length pre) = left
  ∧ Z.of_nat (length seg) = right - left + 1.

(** [post m a Φ]: the outcome, the final array and the trace of the run of
    [m] from [a] satisfy [Φ], whatever the outcome is. *)
Definition post {X} (m : M T E X) (a : list T)
    (Φ : outcome E X → list T → list event → Prop) : Prop :=
  Φ (res_out (m a)) (res_arr (m a)) (res_trace (m a)).

(** Every event of every run of [m] satisfies [P]. *)
Definition emits {X} (P : event → Prop) (m : M T E X) : Prop :=
  ∀ a, Forall P (res_trace (m a)).

End Assertions.

(** Number of events of a trace that pass a test. *)
Fixpoint count (p : event → bool) (tr : list event) : Z :=
  match tr with
  | [] => 0
  | ev :: tr' => (if p ev then 1 else 0) + count p tr'
  end.

(** Every run of [m] executes at most [c] events that pass the test [p]. *)
Definition at_most {T E X} (p : event → bool) (c : Z) (m : M T E X) : Prop :=
  ∀ a, count p (res_trace (m a)) ≤ c.

Definition is_leq (ev : event) : bool :=
  match ev with EvLeq _ => true | _ => false end.
Definition is_swap (ev : event) : bool :=
  match ev with EvSwap _ _ => true | _ => false end.
(** A swap of two distinct positions. *)
Definition is_exchange (ev : event) : bool :=
  match ev with EvSwap i j => negb (i =? j) | _ => false end.
Definition is_spawn (ev : event) : bool :=
  match ev with EvSpawn _ _ _ => true | _ => false end.
Definition is_join (ev : event) : bool :=
  match ev with EvJoin _ _ _ => true | _ => false end.

(** An event of the sequential code: neither a spawn nor a join. *)
Definition sequential (ev : event) : Prop :=
  is_spawn ev = false ∧ is_join ev = false.

(** Every run of [m] that does not return normally stops with an outcome
    that satisfies [O]. *)
Definition stops_only {T E X} (O : outcome E unit → Prop) (m : M T E X)
    : Prop :=
  ∀ a,
    match res_out (m a) with
    | Done _ => True
    | Raise e => O (Raise e)
    | Fault => O Fault
    | Timeout => O Timeout
    end.

(** The exceptions that the two comparisons can throw. *)
Definition thrown {T E} (less leq : T → T → E + bool) (e : E) : Prop :=
  ∃ x y, less x y = inl e ∨ leq x y = inl e.

(** A pivot selection on a range of at least two elements. *)
Definition wide (ev : event) : Prop :=
  match ev with
  | EvPivot l r => 1 ≤ r - l
  | _ => True
  end.

(** A task spawned below a call at [depth]: its depth is larger, and at most
    [MAX_DEPTH]. *)
Definition deeper (cfg : config) (depth : Z) (ev : event) : Prop :=
  match ev with
  | EvSpawn _ _ d => depth < d ≤ MAX_DEPTH cfg
  | _ => True
  end.

(** The positions that an event touches, or the range that it names, lie in
    [lo .. hi]. *)
Definition within (lo hi : Z) (ev : event) : Prop :=
  match ev with
  | EvLess i j | EvSwap i j => lo ≤ i ≤ hi ∧ lo ≤ j ≤ hi
  | EvLeq j => lo ≤ j ≤ hi
  | EvPivot l r | EvSpawn l r _ | EvJoin l r _ => lo ≤ l ∧ r ≤ hi
  end.

(** A call has returned to its caller: normally or by an exception. *)
Definition returned {E X} (o : outcome E X) : Prop :=
  match o with
  | Done _ | Raise _ => True
  | Fault | Timeout => False
  end.

(** Number of elements of the range [left .. right]. *)
Definition range_size (left right : Z) : Z := right - left + 1.

(** A comparison that never throws. *)
Definition total {T E} (f : T → T → bool) : T → T → E + bool :=
  λ x y, inr (f x y).

(** The error kind of a comparison that fails. *)
Inductive failure : Type := ComparatorFailure.

(** [operator<] and [operator<=] of [int]; they never throw. *)
Definition int_less : Z → Z → failure + bool := total Z.ltb.
Definition int_leq : Z → Z → failure + bool := total Z.leb.

(** An [operator<=] on integers that throws when asked whether [1 <= 2]. *)
Definition failing_leq : Z → Z → failure + bool := λ x y,
  if (x =? 1) && (y =? 2) then inl ComparatorFailure else inr (x <=? y).

(** ** The harness: [is_sorted] (lines 98-102) *)

Section Harness.
Context {T E : Type}.
Variable less : T → T → E + bool.   (* [operator<] of [T] *)

(** [std::is_sorted(first, last)] with [operator<]: the scan of the adjacent
    pairs that stops at the first element that is less than its
    predecessor. *)
Fixpoint is_sorted_from (n : nat) (i : Z) : M T E bool :=
  match n with
  | O => mret true
  | S n' =>
      b ← less_at less (i + 1) i;
      if b : bool then mret false else is_sorted_from n' (i + 1)
  end.

(** Lines 99-102: [is_sorted(arr)]. *)
Definition is_sorted : M T E bool := λ a,
  is_sorted_from (length a - 1) 0 a.

End Harness.

(** The array [a'] and the trace [tr] of a run from [a]: the elements are
    those of [a], and a position that no swap of the trace names holds what
    it held. *)
Definition tracked {T} (a a' : list T) (tr : list event) : Prop :=
  a' ≡ₚ a
  ∧ ∀ k : nat,
      (∀ i j, EvSwap i j ∈ tr → Z.of_nat k ≠ i ∧ Z.of_nat k ≠ j) →
      a' !! k = a !! k.

(** Every run of [m] changes the array by the swaps of its trace only. *)
Definition tracks {T E X} (m : M T E X) : Prop :=
  ∀ a, tracked a (res_arr (m a)) (res_trace (m a)).

(** The positions of the vector that an event reads or writes. *)
Definition touches (ev : event) (k : Z) : Prop :=
  match ev with
  | EvLess i j | EvSwap i j => k = i ∨ k = j
  | EvLeq j => k = j
  | EvPivot _ _ | EvSpawn _ _ _ | EvJoin _ _ _ => False
  end.

(** The element at [k + 1] is found not less than its predecessor. *)
Definition in_order {T E} (less : T → T → E + bool) (a : list T) (k : nat)
    : Prop :=
  ∃ x y, a !! k = Some x ∧ a !! S k = Some y ∧ less y x = inr false.

(** The first [m] comparisons of a pass of [std::is_sorted]: each element
    against its predecessor, [arr[1] < arr[0]] first. *)
Definition adjacent_pairs (m : nat) : list event :=
  (λ k, EvLess (k + 1) k) <$> seqZ 0 (Z.of_nat m).

Definition is_pivot (ev : event) : bool :=
  match ev with EvPivot _ _ => true | _ => false end.
Definition is_less (ev : event) : bool :=
  match ev with EvLess _ _ => true | _ => false end.

(** ** The embedding on concrete inputs *)

(** Lines 17-39 on [5; 3; 8; 1; 9; 2]: the median of 5, 8 and 2 is moved to
    the end, and the partition around it returns the index 3. *)
Example pivot_then_partition :
  (choose_pivot int_less 0 5 ≫= partition int_leq 0 5) [5; 3; 8; 1; 9; 2]
  = Res [2; 3; 1; 5; 9; 8]
        [EvPivot 0 5; EvLess 2 0; EvLess 5 0; EvSwap 0 5; EvLess 2 5;
         EvLeq 0; EvSwap 0 0; EvLeq 1; EvSwap 1 1; EvLeq 2; EvLeq 3;
         EvSwap 2 3; EvLeq 4; EvSwap 3 5]
        (Done 3).
Proof. reflexivity. Qed.

Example sequential_sort :
  res_arr (quicksort_seq int_less int_leq 7 0 5 [5; 3; 8; 1; 9; 2])
  = [1; 2; 3; 5; 8; 9].
Proof. reflexivity. Qed.

(** A range that reaches beyond the vector is an out-of-range access. *)
Example range_beyond_vector :
  res_out (quicksort_seq int_less int_leq 7 0 5 [5; 3; 8]) = Fault.
Proof. reflexivity. Qed.

(** Two nested calls are not enough for six elements. *)
Example fuel_exhausted :
  res_out (quicksort_seq int_less int_leq 2 0 5 [5; 3; 8; 1; 9; 2]) = Timeout.
Proof. reflexivity. Qed.

(** Equal lists up to the bracketing of [++]. *)
Ltac reassoc :=
  repeat rewrite <- app_assoc; simpl; repeat rewrite <- app_assoc; reflexivity.

(** ** The range of the entry call *)

Lemma last_index_small {T} (a : list T) :
  Z.of_nat (length a) ≤ 2147483648 → last_index a = Z.of_nat (length a) - 1.
Proof.
  intros Hn. unfold last_index, to_int.
  destruct (decide (length a = 0%nat)) as [->|Hpos]; [done|].
  rewrite (Z.mod_small (Z.of_nat (length a) - 1)) by lia.
  rewrite Z.mod_small by lia. lia.
Qed.

Lemma last_index_below {T} (a : list T) :
  -2147483648 ≤ last_index a < Z.of_nat (length a).
Proof.
  unfold last_index, to_int.
  destruct (decide (length a = 0%nat)) as [->|Hpos]; [done|].
  pose proof (Z.mod_pos_bound (Z.of_nat (length a) - 1) 18446744073709551616
    ltac:(lia)) as Hw.
  pose proof (Z.mod_le (Z.of_nat (length a) - 1) 18446744073709551616
    ltac:(lia) ltac:(lia)) as Hle.
  set (w := (Z.of_nat (length a) - 1) mod 18446744073709551616) in *.
  pose proof (Z.mod_pos_bound (w + 2147483648) 4294967296 ltac:(lia)) as Hm.
  pose proof (Z.mod_le (w + 2147483648) 4294967296 ltac:(lia) ltac:(lia)).
  lia.
Qed.

(** ** Rules for the primitive operations *)

Section Rules.
Context {T E : Type}.
Implicit Types (a : list T) (R : E → Prop).

Lemma wp_ret {X} (x : X) a (Q : X → list T → Prop) R :
  Q x a → wp (mret x) a Q R.
Proof. done. Qed.

Lemma wp_bind {X Y} (m : M T E X) (f : X → M T E Y) a
    (Q : Y → list T → Prop) R :
  wp m a (λ x a', wp (f x) a' Q R) R → wp (m ≫= f) a Q R.
Proof.
  unfold wp, mbind, M_bind, then_run.
  destruct (res_out (m a)) as [x|e| |]; simpl; try done.
Qed.

Lemma wp_mono {X} (m : M T E X) a (Q Q' : X → list T → Prop) R R' :
  wp m a Q R →
  (∀ x a', Q x a' → Q' x a') → (∀ e, R e → R' e) →
  wp m a Q' R'.
Proof.
  unfold wp. destruct (res_out (m a)); auto.
Qed.

Lemma wp_emit ev a (Q : unit → list T → Prop) R :
  Q tt a → wp (emit ev) a Q R.
Proof. done. Qed.

Lemma wp_eval {X} (v : E + X) a (Q : X → list T → Prop) R :
  match v with inl e => R e | inr x => Q x a end → wp (eval v) a Q R.
Proof. by destruct v. Qed.

Lemma wp_when (b : bool) (m : M T E unit) a (Q : unit → list T → Prop) R :
  (b = true → wp m a Q R) → (b = false → Q tt a) → wp (when b m) a Q R.
Proof. intros Ht Hf. destruct b; simpl; [by apply Ht | by apply Hf]. Qed.

Lemma wp_load (i : Z) x a (Q : T → list T → Prop) R :
  0 ≤ i → a !! Z.to_nat i = Some x → Q x a → wp (load i) a Q R.
Proof.
  intros Hi Hx HQ. unfold wp, load.
  rewrite (proj2 (Z.leb_le 0 i) Hi), Hx. done.
Qed.

Lemma wp_store (i : Z) x a (Q : unit → list T → Prop) R :
  0 ≤ i < Z.of_nat (length a) →
  Q tt (<[Z.to_nat i := x]> a) → wp (store i x) a Q R.
Proof.
  intros [Hi Hlen] HQ. unfold wp, store.
  rewrite (proj2 (Z.leb_le 0 i) Hi), (proj2 (Z.ltb_lt _ _) Hlen). done.
Qed.

Lemma wp_swap (i j : Z) x y a (Q : unit → list T → Prop) R :
  0 ≤ i → 0 ≤ j →
  a !! Z.to_nat i = Some x → a !! Z.to_nat j = Some y →
  Q tt (<[Z.to_nat j := x]> (<[Z.to_nat i := y]> a)) →
  wp (swap i j) a Q R.
Proof.
  intros Hi Hj Hx Hy HQ. unfold swap.
  apply wp_bind, (wp_load i x); [done..|].
  apply wp_bind, (wp_load j y); [done..|].
  apply wp_bind, wp_store.
  { apply lookup_lt_Some in Hx. lia. }
  apply wp_bind, wp_store.
  { rewrite length_insert. apply lookup_lt_Some in Hy. lia. }
  by apply wp_emit.
Qed.

Lemma wp_async (ev : event) (task : M T E unit) a
    (Q : future E → list T → Prop) R :
  wp task a (λ _ a', Q None a') (λ _, False) → wp (async ev task) a Q R.
Proof.
  unfold wp, async. by destruct (res_out (task a)).
Qed.

Lemma wp_unwinding {X} (ev : event) (body : M T E X) a
    (Q : X → list T → Prop) R :
  wp body a Q R → wp (unwinding ev body) a Q R.
Proof.
  unfold wp, unwinding. simpl.
  destruct (res_out (body a)) eqn:Hout; simpl; by rewrite ?Hout.
Qed.

(** A swap inside a segment permutes that segment and nothing else. *)
Lemma wp_swap_within (i j : Z) a pre seg post left right
    (Q : unit → list T → Prop) R :
  covers a pre seg post left right →
  left ≤ i ≤ right → left ≤ j ≤ right →
  (∀ seg', seg' ≡ₚ seg → length seg' = length seg →
           seg' !! Z.to_nat (j - left) = seg !! Z.to_nat (i - left) →
           Q tt (pre ++ seg' ++ post)) →
  wp (swap i j) a Q R.
Proof.
  intros (-> & Hpre & Hseg) Hi Hj HQ.
  destruct (lookup_lt_is_Some_2 seg (Z.to_nat (i - left))) as [x Hx]; [lia|].
  destruct (lookup_lt_is_Some_2 seg (Z.to_nat (j - left))) as [y Hy]; [lia|].
  assert (Z.to_nat i = (length pre + Z.to_nat (i - left))%nat) as Ei by lia.
  assert (Z.to_nat j = (length pre + Z.to_nat (j - left))%nat) as Ej by lia.
  apply (wp_swap i j x y); [lia|lia|..].
  - rewrite Ei, lookup_app_r, lookup_app_l by (apply lookup_lt_Some in Hx; lia).
    by replace (length pre + Z.to_nat (i - left) - length pre)%nat
      with (Z.to_nat (i - left)) by lia.
  - rewrite Ej, lookup_app_r, lookup_app_l by (apply lookup_lt_Some in Hy; lia).
    by replace (length pre + Z.to_nat (j - left) - length pre)%nat
      with (Z.to_nat (j - left)) by lia.
  - rewrite Ei, Ej, !insert_app_r.
    rewrite insert_app_l by (apply lookup_lt_Some in Hx; lia).
    rewrite insert_app_l
      by (rewrite length_insert; apply lookup_lt_Some in Hy; lia).
    apply HQ.
    + by apply Permutation_insert_swap.
    + by rewrite !length_insert.
    + rewrite list_lookup_insert_eq, Hx; [done|].
      rewrite length_insert. by apply lookup_lt_Some in Hy.
Qed.

End Rules.

Section Blocks.
Context {T E : Type}.
Variable less : T → T → E + bool.
Variable leq : T → T → E + bool.
Implicit Types (a pre seg post : list T) (R : E → Prop).

Lemma covers_lookup a pre seg post left right (k : Z) :
  covers a pre seg post left right → left ≤ k ≤ right →
  0 ≤ k ∧ a !! Z.to_nat k = seg !! Z.to_nat (k - left)
  ∧ is_Some (seg !! Z.to_nat (k - left)).
Proof.
  intros (-> & Hpre & Hseg) Hk. split; [lia|]. split.
  - rewrite lookup_app_r, lookup_app_l by lia. f_equal. lia.
  - apply lookup_lt_is_Some_2. lia.
Qed.

Lemma wp_less_at_within (i j : Z) a pre seg post left right
    (Q : bool → list T → Prop) R :
  covers a pre seg post left right →
  left ≤ i ≤ right → left ≤ j ≤ right →
  (∀ x y e, less x y = inl e → R e) →
  (∀ b, Q b a) →
  wp (less_at less i j) a Q R.
Proof.
  intros Hc Hi Hj Hless HQ. unfold less_at.
  destruct (covers_lookup _ _ _ _ _ _ i Hc Hi) as (? & Ei & [x Hx]).
  destruct (covers_lookup _ _ _ _ _ _ j Hc Hj) as (? & Ej & [y Hy]).
  apply wp_bind, (wp_load i x); [done|congruence|].
  apply wp_bind, (wp_load j y); [done|congruence|].
  apply wp_bind, wp_emit, wp_eval.
  destruct (less x y) as [e|b] eqn:Hxy; eauto.
Qed.

(** The conditional swap of one step of the median of three. *)
Lemma wp_when_swap_within (b : bool) (k l : Z) a pre seg post left right
    (Q : unit → list T → Prop) R :
  covers a pre seg post left right →
  left ≤ k ≤ right → left ≤ l ≤ right →
  (∀ seg', seg' ≡ₚ seg → covers (pre ++ seg' ++ post) pre seg' post left right →
           Q tt (pre ++ seg' ++ post)) →
  wp (when b (swap k l)) a Q R.
Proof.
  intros Hc Hk Hl HQ. apply wp_when; intros _.
  - apply (wp_swap_within k l a pre seg post left right); try done.
    intros seg' Hperm Hlen _. apply HQ; [done|].
    destruct Hc as (_ & ? & ?). repeat split; [done|lia].
  - destruct Hc as (-> & ? & ?). apply HQ; [done|]. by repeat split.
Qed.

Lemma wp_choose_pivot (left right : Z) a pre seg post
    (Q : T → list T → Prop) R :
  covers a pre seg post left right → left ≤ right →
  (∀ x y e, less x y = inl e → R e) →
  (∀ body p, body ++ [p] ≡ₚ seg → Q p (pre ++ (body ++ [p]) ++ post)) →
  wp (choose_pivot less left right) a Q R.
Proof.
  intros Hc Hlr Hless HQ. unfold choose_pivot.
  apply wp_bind, wp_emit.
  set (mid := left + (right - left) `quot` 2).
  assert (left ≤ mid ≤ right) as Hmid.
  { unfold mid. pose proof (Z.quot_pos (right - left) 2).
    pose proof (Z.quot_le_upper_bound (right - left) 2 (right - left)). lia. }
  apply wp_bind, (wp_less_at_within mid left a pre seg post left right);
    [done|lia..|done|]; intros b1.
  apply wp_bind, (wp_when_swap_within b1 left mid a pre seg post left right);
    [done|lia..|]; intros seg1 Hp1 Hc1.
  apply wp_bind, (wp_less_at_within right left _ pre seg1 post left right);
    [done|lia..|done|]; intros b2.
  apply wp_bind, (wp_when_swap_within b2 left right _ pre seg1 post left right);
    [done|lia..|]; intros seg2 Hp2 Hc2.
  apply wp_bind, (wp_less_at_within mid right _ pre seg2 post left right);
    [done|lia..|done|]; intros b3.
  apply wp_bind, (wp_when_swap_within b3 mid right _ pre seg2 post left right);
    [done|lia..|]; intros seg3 Hp3 Hc3.
  destruct (covers_lookup _ _ _ _ _ _ right Hc3) as (? & Er & [p Hp]); [lia|].
  apply (wp_load right p); [done|congruence|].
  destruct Hc3 as (_ & Hpre & Hlen).
  destruct seg3 as [|q body _] using rev_ind.
  { simpl in Hlen. lia. }
  rewrite length_app in Hlen. simpl in Hlen.
  rewrite lookup_app_r in Hp by lia.
  replace (Z.to_nat (right - left) - length body)%nat with 0%nat in Hp by lia.
  simpl in Hp. injection Hp as ->.
  apply HQ. by rewrite Hp3, Hp2.
Qed.
End Blocks.

Section Partition.
Context {T E : Type}.
Variable leq : T → T → E + bool.
Implicit Types (a pre post Ls Gs rest : list T) (R : E → Prop).

Lemma wp_leq_pivot (j : Z) (x p : T) a (Q : bool → list T → Prop) R :
  0 ≤ j → a !! Z.to_nat j = Some x →
  (∀ e, leq x p = inl e → R e) →
  (∀ b, leq x p = inr b → Q b a) →
  wp (leq_pivot leq j p) a Q R.
Proof.
  intros Hj Hx HR HQ. unfold leq_pivot.
  apply wp_bind, (wp_load j x); [done..|].
  apply wp_bind, wp_emit, wp_eval.
  destruct (leq x p) as [e|b]; eauto.
Qed.

(** Exchanging the heads of two blocks of a list. *)
Lemma insert_swap_blocks (A B C : list T) (x y : T) (i j : nat) :
  i = length A → j = (length A + S (length B))%nat →
  <[j := x]> (<[i := y]> (A ++ x :: B ++ y :: C)) = A ++ y :: B ++ x :: C.
Proof.
  intros -> ->.
  rewrite <-(Nat.add_0_r (length A)) at 2. rewrite insert_app_r. simpl.
  rewrite insert_app_r. simpl. f_equal. f_equal.
  rewrite <-(Nat.add_0_r (length B)). by rewrite insert_app_r.
Qed.

(** [std::swap(arr[i], arr[j])] on the boundary of the scan: the first
    element of the block of larger elements goes behind that block. *)
Lemma wp_swap_boundary (i j : Z) (x : T) pre Ls Gs rest post
    (Q : unit → list T → Prop) R :
  i = Z.of_nat (length pre) + Z.of_nat (length Ls) →
  j = i + Z.of_nat (length Gs) →
  (∀ Gs', Gs' ≡ₚ Gs → length Gs' = length Gs →
          Q tt (pre ++ (Ls ++ x :: Gs' ++ rest) ++ post)) →
  wp (swap i j) (pre ++ (Ls ++ Gs ++ x :: rest) ++ post) Q R.
Proof.
  intros Hi Hj HQ. destruct Gs as [|g Gs'].
  - simpl in *. assert (j = i) as -> by lia.
    assert ((pre ++ (Ls ++ x :: rest) ++ post) !! Z.to_nat i = Some x) as Hx.
    { replace (pre ++ (Ls ++ x :: rest) ++ post)
        with ((pre ++ Ls) ++ x :: rest ++ post) by reassoc.
      replace (Z.to_nat i) with (length (pre ++ Ls))
        by (rewrite length_app; lia).
      by rewrite lookup_app_r, Nat.sub_diag. }
    apply (wp_swap i i x x); [lia|lia|done|done|].
    rewrite list_insert_insert_eq, list_insert_id by done.
    by apply (HQ []).
  - assert (pre ++ (Ls ++ (g :: Gs') ++ x :: rest) ++ post
            = (pre ++ Ls) ++ g :: Gs' ++ x :: (rest ++ post)) as ->.
    { by rewrite <-!app_assoc. }
    apply (wp_swap i j g x); [lia|lia|..].
    + replace (Z.to_nat i) with (length (pre ++ Ls))
        by (rewrite length_app; lia).
      by rewrite lookup_app_r, Nat.sub_diag.
    + replace (Z.to_nat j) with (length ((pre ++ Ls) ++ g :: Gs'))
        by (rewrite !length_app; simpl in *; lia).
      replace ((pre ++ Ls) ++ g :: Gs' ++ x :: rest ++ post)
        with (((pre ++ Ls) ++ g :: Gs') ++ x :: rest ++ post)
        by reassoc.
      by rewrite lookup_app_r, Nat.sub_diag.
    + rewrite (insert_swap_blocks (pre ++ Ls) Gs' (rest ++ post) g x);
        [|rewrite length_app; lia|rewrite length_app; simpl in *; lia].
      specialize (HQ (Gs' ++ [g])).
      rewrite <-!app_assoc in HQ. simpl in HQ. rewrite <-!app_assoc in HQ.
      rewrite <-!app_assoc. apply HQ.
      * by rewrite Permutation_app_comm.
      * rewrite length_app. simpl. lia.
Qed.

Local Abbreviation below p := (λ x, leq x p = inr true).
Local Abbreviation above p := (λ x, leq x p = inr false).
Local Abbreviation scan_step p :=
  (λ j i : Z, b ← leq_pivot leq j p;
              if b : bool then swap (i + 1) j;; mret (i + 1) else mret i).

(** Invariant of the scan: the scanned part is a block of elements
    [<= pivot] followed by a block of elements that are not. *)
Lemma wp_scan (p : T) pre post R (Q : Z → list T → Prop) :
  (∀ x e, leq x p = inl e → R e) →
  ∀ (n : nat) Ls Gs rest (i j : Z),
    length rest = n →
    i = Z.of_nat (length pre) + Z.of_nat (length Ls) - 1 →
    j = i + 1 + Z.of_nat (length Gs) →
    Forall (below p) Ls → Forall (above p) Gs →
    (∀ Ls' Gs',
        Ls' ++ Gs' ≡ₚ Ls ++ Gs ++ rest →
        Forall (below p) Ls' → Forall (above p) Gs' →
        Q (Z.of_nat (length pre) + Z.of_nat (length Ls') - 1)
          (pre ++ (Ls' ++ Gs' ++ [p]) ++ post)) →
    wp (for_loop n j (scan_step p) i)
       (pre ++ (Ls ++ Gs ++ rest ++ [p]) ++ post) Q R.
Proof.
  intros Hleq n. induction n as [|n IH];
    intros Ls Gs rest i j Hn Hi Hj HLs HGs HQ.
  - destruct rest; [|done]. simpl. apply wp_ret. subst i.
    apply HQ; [by rewrite app_nil_r|done..].
  - destruct rest as [|x rest]; [done|]. simpl in Hn.
    simpl for_loop. apply wp_bind, wp_bind, (wp_leq_pivot j x p); [lia| |by eauto|].
    { replace (pre ++ (Ls ++ Gs ++ (x :: rest) ++ [p]) ++ post)
        with ((pre ++ Ls ++ Gs) ++ x :: rest ++ [p] ++ post)
        by reassoc.
      replace (Z.to_nat j) with (length (pre ++ Ls ++ Gs))
        by (rewrite !length_app; lia).
      by rewrite lookup_app_r, Nat.sub_diag. }
    intros [|] Hb.
    + apply wp_bind.
      apply (wp_swap_boundary (i + 1) j x pre Ls Gs (rest ++ [p]) post);
        [lia|lia|].
      intros Gs' HGs' Hlen. apply wp_ret.
      replace (pre ++ (Ls ++ x :: Gs' ++ rest ++ [p]) ++ post)
        with (pre ++ ((Ls ++ [x]) ++ Gs' ++ rest ++ [p]) ++ post)
        by reassoc.
      apply IH; [lia|rewrite length_app; simpl; lia|lia| | |].
      * apply Forall_app. split; [done|]. by constructor.
      * by rewrite HGs'.
      * intros Ls' Gs'' Hperm. apply HQ. rewrite Hperm, HGs'.
        rewrite <-!app_assoc. simpl. f_equiv.
        by rewrite <-Permutation_middle.
    + apply wp_ret.
      replace (pre ++ (Ls ++ Gs ++ (x :: rest) ++ [p]) ++ post)
        with (pre ++ (Ls ++ (Gs ++ [x]) ++ rest ++ [p]) ++ post)
        by reassoc.
      apply IH; [lia|lia|rewrite length_app; simpl; lia|done| |].
      * apply Forall_app. split; [done|]. by constructor.
      * intros Ls' Gs' Hperm. apply HQ. rewrite Hperm.
        by rewrite <-!app_assoc.
Qed.

(** The partition step: the segment [body ++ [p]] becomes
    [Ls ++ p :: Gs], and the index of [p] is returned. *)
Lemma wp_partition (left right : Z) (p : T) a pre body post
    (Q : Z → list T → Prop) R :
  covers a pre (body ++ [p]) post left right →
  (∀ x e, leq x p = inl e → R e) →
  (∀ Ls Gs,
      Ls ++ Gs ≡ₚ body → Forall (below p) Ls → Forall (above p) Gs →
      Q (left + Z.of_nat (length Ls)) (pre ++ (Ls ++ p :: Gs) ++ post)) →
  wp (partition leq left right p) a Q R.
Proof.
  intros (-> & Hpre & Hlen) Hleq HQ. unfold partition, for_range.
  rewrite length_app in Hlen. simpl in Hlen.
  apply wp_bind.
  replace (pre ++ (body ++ [p]) ++ post)
    with (pre ++ ([] ++ [] ++ body ++ [p]) ++ post) by done.
  apply wp_scan; [done|lia|simpl; lia|simpl; lia|done|done|].
  intros Ls Gs Hperm HLs HGs. simpl in Hperm.
  apply wp_bind.
  replace (pre ++ (Ls ++ Gs ++ [p]) ++ post)
    with (pre ++ (Ls ++ Gs ++ p :: []) ++ post) by done.
  apply (wp_swap_boundary _ right p pre Ls Gs [] post).
  { lia. }
  { apply Permutation_length in Hperm. rewrite length_app in Hperm. lia. }
  intros Gs' HGs' _. apply wp_ret.
  replace (Z.of_nat (length pre) + Z.of_nat (length Ls) - 1 + 1)
    with (left + Z.of_nat (length Ls)) by lia.
  rewrite app_nil_r. apply HQ; [by rewrite HGs'|done|by rewrite HGs'].
Qed.
End Partition.

(** ** The two sorts, for any property [inv] of segments that holds of
    short segments and is preserved when two partitions are joined *)

Section Sorts.
Context {T E : Type}.
Variable less : T → T → E + bool.
Variable leq : T → T → E + bool.
Variable R : E → Prop.
Variable inv : list T → Prop.
Implicit Types (a pre seg post : list T).

Hypothesis less_throws : ∀ x y e, less x y = inl e → R e.
Hypothesis leq_throws : ∀ x y e, leq x y = inl e → R e.
Hypothesis inv_short : ∀ seg, (length seg ≤ 1)%nat → inv seg.
Hypothesis inv_join : ∀ p Ls Gs,
  Forall (λ x, leq x p = inr true) Ls →
  Forall (λ x, leq x p = inr false) Gs →
  inv Ls → inv Gs → inv (Ls ++ p :: Gs).

Lemma wp_quicksort_seq (fuel : nat) :
  ∀ (left right : Z) a pre seg post (Q : unit → list T → Prop),
    covers a pre seg post left right →
    (length seg < fuel)%nat →
    (∀ seg', seg' ≡ₚ seg → inv seg' → Q tt (pre ++ seg' ++ post)) →
    wp (quicksort_seq less leq fuel left right) a Q R.
Proof.
  induction fuel as [|fuel IH]; intros left right a pre seg post Q Hc Hfuel HQ;
    [lia|].
  simpl. destruct (left >=? right) eqn:Hcmp.
  - apply wp_ret. destruct Hc as (-> & Hpre & Hlen).
    apply HQ; [done|]. apply inv_short. lia.
  - assert (left < right) as Hlr by lia.
    apply wp_bind, (wp_choose_pivot less left right a pre seg post);
      [done|lia|done|].
    intros body p Hbody.
    assert (length (body ++ [p]) = length seg) as Hlen
      by (by apply Permutation_length).
    destruct Hc as (_ & Hpre & Hseg).
    apply wp_bind, (wp_partition leq left right p _ pre body post).
    { repeat split; [done|lia]. }
    { eauto. }
    intros Ls Gs Hperm HLs HGs.
    assert (length body = (length Ls + length Gs)%nat) as Hsplit
      by (rewrite <-length_app; symmetry; by apply Permutation_length).
    rewrite length_app in Hlen. simpl in Hlen.
    apply wp_bind.
    apply (IH left _ _ pre Ls ((p :: Gs) ++ post)).
    { repeat split; [reassoc|done|lia]. }
    { lia. }
    intros Ls' HLs' HinvL.
    assert (length Ls' = length Ls) by (by apply Permutation_length).
    apply (IH _ right _ (pre ++ Ls' ++ [p]) Gs post).
    { repeat split; [reassoc|rewrite !length_app; simpl; lia|lia]. }
    { lia. }
    intros Gs' HGs' HinvG.
    replace ((pre ++ Ls' ++ [p]) ++ Gs' ++ post)
      with (pre ++ (Ls' ++ p :: Gs') ++ post) by reassoc.
    apply HQ.
    + rewrite <-Hbody, <-Hperm, HLs', HGs'.
      rewrite <-!app_assoc. f_equiv. apply Permutation_cons_append.
    + apply inv_join; [by rewrite HLs'|by rewrite HGs'|done..].
Qed.

Hypothesis never_throws : ∀ e, ¬ R e.

Lemma wp_quicksort_parallel (cfg : config) (fuel : nat) :
  0 ≤ SEQUENTIAL_THRESHOLD cfg →
  ∀ (left right depth : Z) a pre seg post (Q : unit → list T → Prop),
    covers a pre seg post left right →
    (S (length seg) < fuel)%nat →
    (∀ seg', seg' ≡ₚ seg → inv seg' → Q tt (pre ++ seg' ++ post)) →
    wp (quicksort_parallel less leq cfg fuel left right depth) a Q R.
Proof.
  intros Hcfg. induction fuel as [|fuel IH];
    intros left right depth a pre seg post Q Hc Hfuel HQ; [lia|].
  simpl.
  destruct ((right - left <=? SEQUENTIAL_THRESHOLD cfg)
            || (depth >=? MAX_DEPTH cfg)) eqn:Hcond.
  - apply (wp_quicksort_seq fuel left right a pre seg post); [done|lia|done].
  - apply orb_false_iff in Hcond as [Hsize _].
    assert (left < right) as Hlr by lia.
    apply wp_bind, (wp_choose_pivot less left right a pre seg post);
      [done|lia|done|].
    intros body p Hbody.
    assert (length (body ++ [p]) = length seg) as Hlen
      by (by apply Permutation_length).
    destruct Hc as (_ & Hpre & Hseg).
    apply wp_bind, (wp_partition leq left right p _ pre body post).
    { repeat split; [done|lia]. }
    { eauto. }
    intros Ls Gs Hperm HLs HGs.
    assert (length body = (length Ls + length Gs)%nat) as Hsplit
      by (rewrite <-length_app; symmetry; by apply Permutation_length).
    rewrite length_app in Hlen. simpl in Hlen.
    apply wp_bind, wp_async.
    eapply wp_mono; [|intros x a' H; exact H|by intros e ?%never_throws].
    apply (IH left _ _ _ pre Ls ((p :: Gs) ++ post)).
    { repeat split; [reassoc|done|lia]. }
    { lia. }
    intros Ls' HLs' HinvL.
    assert (length Ls' = length Ls) by (by apply Permutation_length).
    apply wp_unwinding, wp_bind.
    apply (IH _ right _ _ (pre ++ Ls' ++ [p]) Gs post).
    { repeat split; [reassoc|rewrite !length_app; simpl; lia|lia]. }
    { lia. }
    intros Gs' HGs' HinvG. apply wp_emit.
    replace ((pre ++ Ls' ++ [p]) ++ Gs' ++ post)
      with (pre ++ (Ls' ++ p :: Gs') ++ post) by reassoc.
    apply HQ.
    + rewrite <-Hbody, <-Hperm, HLs', HGs'.
      rewrite <-!app_assoc. f_equiv. apply Permutation_cons_append.
    + apply inv_join; [by rewrite HLs'|by rewrite HGs'|done..].
Qed.
End Sorts.

(** ** Traces *)

Section Traces.
Context {T E : Type}.
Implicit Types (a : list T) (P : event → Prop).

Lemma count_app p tr1 tr2 : count p (tr1 ++ tr2) = count p tr1 + count p tr2.
Proof. induction tr1 as [|ev tr1 IH]; simpl; lia. Qed.

Lemma count_none p tr : Forall (λ ev, p ev = false) tr → count p tr = 0.
Proof. induction 1 as [|ev tr Hev _ IH]; simpl; [done|]. rewrite Hev. lia. Qed.

Lemma bind_trace {X Y} (m : M T E X) (f : X → M T E Y) a :
  res_trace ((m ≫= f) a)
  = res_trace (m a)
    ++ match res_out (m a) with
       | Done x => res_trace (f x (res_arr (m a)))
       | _ => []
       end.
Proof.
  unfold mbind, M_bind, then_run.
  destruct (res_out (m a)); simpl; by rewrite ?app_nil_r.
Qed.

Lemma emits_ret {X} P (x : X) : emits P (mret x : M T E X).
Proof. intros a. constructor. Qed.

Lemma emits_bind {X Y} P (m : M T E X) (f : X → M T E Y) :
  emits P m → (∀ x, emits P (f x)) → emits P (m ≫= f).
Proof.
  intros Hm Hf a. rewrite bind_trace. apply Forall_app. split; [apply Hm|].
  destruct (res_out (m a)); [apply Hf|constructor..].
Qed.

Lemma emits_emit P ev : P ev → emits P (emit ev : M T E unit).
Proof. intros Hev a. by repeat constructor. Qed.

Lemma emits_load P i : emits P (load i : M T E T).
Proof.
  intros a. unfold load. destruct (0 <=? i); [|constructor].
  destruct (a !! Z.to_nat i); constructor.
Qed.

Lemma emits_store P i x : emits P (store i x : M T E unit).
Proof. intros a. unfold store. case_match; constructor. Qed.

Lemma emits_eval {X} P (v : E + X) : emits P (eval v : M T E X).
Proof. intros a. destruct v; constructor. Qed.

Lemma emits_swap P i j : P (EvSwap i j) → emits P (swap i j : M T E unit).
Proof.
  intros Hev. unfold swap.
  apply emits_bind; [apply emits_load|intros x].
  apply emits_bind; [apply emits_load|intros y].
  apply emits_bind; [apply emits_store|intros _].
  apply emits_bind; [apply emits_store|intros _].
  by apply emits_emit.
Qed.

Lemma emits_when P (b : bool) (m : M T E unit) :
  emits P m → emits P (when b m).
Proof. intros Hm. destruct b; [done|apply emits_ret]. Qed.

Lemma emits_for_loop {S} P (body : Z → S → M T E S) n :
  (∀ j acc, emits P (body j acc)) → ∀ j acc, emits P (for_loop n j body acc).
Proof.
  intros Hbody. induction n as [|n IH]; intros j acc; simpl.
  - apply emits_ret.
  - apply emits_bind; [apply Hbody|intros acc'; apply IH].
Qed.

Lemma emits_async P ev (task : M T E unit) :
  P ev → emits P task → emits P (async ev task).
Proof.
  intros Hev Htask a. unfold async.
  destruct (res_out (task a)); simpl; constructor; auto.
Qed.

Lemma emits_unwinding {X} P ev (body : M T E X) :
  P ev → emits P body → emits P (unwinding ev body).
Proof.
  intros Hev Hbody a. unfold unwinding.
  destruct (res_out (body a)); simpl; try apply Hbody.
  apply Forall_app. split; [apply Hbody|by repeat constructor].
Qed.

Variable less : T → T → E + bool.
Variable leq : T → T → E + bool.
Variable P : event → Prop.

Lemma emits_less_at i j : P (EvLess i j) → emits P (less_at less i j).
Proof.
  intros Hev. unfold less_at.
  apply emits_bind; [apply emits_load|intros x].
  apply emits_bind; [apply emits_load|intros y].
  apply emits_bind; [by apply emits_emit|intros _]. apply emits_eval.
Qed.

Lemma emits_leq_pivot j p : P (EvLeq j) → emits P (leq_pivot leq j p).
Proof.
  intros Hev. unfold leq_pivot.
  apply emits_bind; [apply emits_load|intros x].
  apply emits_bind; [by apply emits_emit|intros _]. apply emits_eval.
Qed.

Hypothesis P_less : ∀ i j, P (EvLess i j).
Hypothesis P_leq : ∀ j, P (EvLeq j).
Hypothesis P_swap : ∀ i j, P (EvSwap i j).

Lemma emits_choose_pivot left right :
  P (EvPivot left right) → emits P (choose_pivot less left right).
Proof.
  intros Hlr. unfold choose_pivot.
  apply emits_bind; [by apply emits_emit|intros _].
  repeat (apply emits_bind;
          [first [by apply emits_less_at | by apply emits_when, emits_swap]
          |intros ?]).
  apply emits_load.
Qed.

Lemma emits_partition left right p : emits P (partition leq left right p).
Proof.
  unfold partition, for_range.
  apply emits_bind; [|intros i].
  - apply emits_for_loop. intros j i.
    apply emits_bind; [|intros [|]].
    + by apply emits_leq_pivot.
    + apply emits_bind; [by apply emits_swap|intros _; apply emits_ret].
    + apply emits_ret.
  - apply emits_bind; [by apply emits_swap|intros _; apply emits_ret].
Qed.

Hypothesis P_pivot : ∀ left right, left < right → P (EvPivot left right).

Lemma emits_quicksort_seq fuel :
  ∀ left right, emits P (quicksort_seq less leq fuel left right).
Proof.
  induction fuel as [|fuel IH]; intros left right; simpl.
  - intros a. constructor.
  - destruct (left >=? right) eqn:Hcmp; [apply emits_ret|].
    apply emits_bind; [apply emits_choose_pivot, P_pivot; lia|intros p].
    apply emits_bind; [apply emits_partition|intros i].
    apply emits_bind; [apply IH|intros _; apply IH].
Qed.

Hypothesis P_spawn : ∀ left right depth, P (EvSpawn left right depth).
Hypothesis P_join : ∀ left right depth, P (EvJoin left right depth).

Lemma emits_quicksort_parallel cfg fuel :
  0 ≤ SEQUENTIAL_THRESHOLD cfg →
  ∀ left right depth,
    emits P (quicksort_parallel less leq cfg fuel left right depth).
Proof.
  intros Hcfg. induction fuel as [|fuel IH]; intros left right depth; simpl.
  - intros a. constructor.
  - destruct ((right - left <=? SEQUENTIAL_THRESHOLD cfg)
              || (depth >=? MAX_DEPTH cfg)) eqn:Hcond.
    { apply emits_quicksort_seq. }
    apply orb_false_iff in Hcond as [Hsize _].
    apply emits_bind; [apply emits_choose_pivot, P_pivot; lia|intros p].
    apply emits_bind; [apply emits_partition|intros i].
    apply emits_bind; [by apply emits_async|intros fut].
    apply emits_unwinding; [done|].
    apply emits_bind; [apply IH|intros _; by apply emits_emit].
Qed.
End Traces.

(** ** Outcome, array and trace of a run together *)

Section Post.
Context {T E : Type}.
Implicit Types (a : list T).

Lemma post_mono {X} (m : M T E X) a
    (Φ Φ' : outcome E X → list T → list event → Prop) :
  post m a Φ → (∀ o a' tr, Φ o a' tr → Φ' o a' tr) → post m a Φ'.
Proof. unfold post. auto. Qed.

Lemma post_ret {X} (x : X) a (Φ : outcome E X → list T → list event → Prop) :
  Φ (Done x) a [] → post (mret x) a Φ.
Proof. done. Qed.

Lemma post_bind {X Y} (m : M T E X) (f : X → M T E Y) a
    (Φ : outcome E Y → list T → list event → Prop) :
  post m a (λ o a1 tr1,
    match o with
    | Done x => post (f x) a1 (λ o2 a2 tr2, Φ o2 a2 (tr1 ++ tr2))
    | Raise e => Φ (Raise e) a1 tr1
    | Fault => Φ Fault a1 tr1
    | Timeout => Φ Timeout a1 tr1
    end) →
  post (m ≫= f) a Φ.
Proof.
  unfold post, mbind, M_bind, then_run. by destruct (res_out (m a)).
Qed.

Lemma post_emits {X} (P : event → Prop) (m : M T E X) a
    (Φ : outcome E X → list T → list event → Prop) :
  emits P m → (∀ o a' tr, Forall P tr → Φ o a' tr) → post m a Φ.
Proof. intros Hm HΦ. apply HΦ, Hm. Qed.

Lemma post_emit ev a (Φ : outcome E unit → list T → list event → Prop) :
  Φ (Done tt) a [ev] → post (emit ev) a Φ.
Proof. done. Qed.

Lemma post_load (i : Z) a (Φ : outcome E T → list T → list event → Prop) :
  (∀ x, Φ (Done x) a []) → Φ Fault a [] → post (load i) a Φ.
Proof.
  intros Hdone Hfault. unfold post, load.
  destruct (0 <=? i); [|done]. destruct (a !! Z.to_nat i); simpl; auto.
Qed.

Lemma post_store (i : Z) (x : T) a
    (Φ : outcome E unit → list T → list event → Prop) :
  (∀ a', Φ (Done tt) a' []) → Φ Fault a [] → post (store i x) a Φ.
Proof. intros Hdone Hfault. unfold post, store. case_match; simpl; auto. Qed.

Lemma post_eval {X} (v : E + X) a
    (Φ : outcome E X → list T → list event → Prop) :
  (∀ x, Φ (Done x) a []) → (∀ e, Φ (Raise e) a []) → post (eval v) a Φ.
Proof. intros Hdone Hraise. destruct v; simpl; [apply Hraise|apply Hdone]. Qed.

Lemma post_swap (i j : Z) a
    (Φ : outcome E unit → list T → list event → Prop) :
  (∀ a', Φ (Done tt) a' [EvSwap i j]) → (∀ a', Φ Fault a' []) →
  post (swap i j) a Φ.
Proof.
  intros Hdone Hfault. unfold swap.
  apply post_bind, post_load; [intros x|done].
  apply post_bind, post_load; [intros y|done].
  apply post_bind, post_store; [intros a1|done].
  apply post_bind, post_store; [intros a2|done].
  by apply post_emit.
Qed.

Variable leq : T → T → E + bool.

Lemma post_leq_pivot (j : Z) (p : T) a
    (Φ : outcome E bool → list T → list event → Prop) :
  (∀ b, Φ (Done b) a [EvLeq j]) → (∀ e, Φ (Raise e) a [EvLeq j]) →
  Φ Fault a [] →
  post (leq_pivot leq j p) a Φ.
Proof.
  intros Hdone Hraise Hfault. unfold leq_pivot.
  apply post_bind, post_load; [intros x|done].
  apply post_bind, post_emit, post_eval; [apply Hdone|apply Hraise].
Qed.

(** What a scan of [n] elements costs when it completes. *)
Lemma post_scan (p : T) (n : nat) : ∀ (i j : Z) a,
  post (for_loop n j
          (λ j i : Z, b ← leq_pivot leq j p;
                      if b : bool then swap (i + 1) j;; mret (i + 1)
                      else mret i) i) a
    (λ o _ tr,
       match o with
       | Done i' =>
           count is_leq tr = Z.of_nat n
           ∧ count is_swap tr = i' - i
           ∧ count is_exchange tr ≤ i' - i
           ∧ i ≤ i' ≤ i + Z.of_nat n
       | _ => True
       end).
Proof.
  induction n as [|n IH]; intros i j a.
  - apply post_ret. simpl. lia.
  - simpl for_loop. apply post_bind, post_bind, post_leq_pivot; [|done..].
    intros [|].
    + apply post_bind, post_swap; [|done]. intros a1.
      apply post_ret. eapply post_mono; [apply IH|].
      intros [i'| | |] _ tr; simpl; [|done..].
      destruct (i + 1 =? j); simpl; lia.
    + apply post_ret. eapply post_mono; [apply IH|].
      intros [i'| | |] _ tr; simpl; [|done..]. lia.
Qed.

(** Cost and result of the partition step, on any array. *)
Lemma post_partition (left right : Z) (p : T) a :
  left ≤ right →
  post (partition leq left right p) a
    (λ o _ tr,
       match o with
       | Done i =>
           left ≤ i ≤ right
           ∧ count is_leq tr = right - left
           ∧ count is_swap tr = i - left + 1
           ∧ count is_exchange tr ≤ right - left
       | _ => True
       end).
Proof.
  intros Hlr. unfold partition, for_range.
  apply post_bind. eapply post_mono; [apply post_scan|].
  intros [i'| | |] a1 tr1; simpl; [|done..]. intros (Hleq & Hswap & Hex & Hi).
  apply post_bind, post_swap; [|done]. intros a2. apply post_ret.
  rewrite !count_app. simpl.
  destruct (i' + 1 =? right) eqn:Hlast; simpl; lia.
Qed.
End Post.

(** ** Spawned tasks *)

Section Tasks.
Context {T E : Type}.
Variable less : T → T → E + bool.
Variable leq : T → T → E + bool.
Implicit Types (a : list T).

Lemma at_most_bind {X Y} p c1 c2 (m : M T E X) (f : X → M T E Y) :
  at_most p c1 m → (∀ x, at_most p c2 (f x)) → 0 ≤ c2 →
  at_most p (c1 + c2) (m ≫= f).
Proof.
  intros Hm Hf Hc2 a. rewrite bind_trace, count_app.
  specialize (Hm a). destruct (res_out (m a)); simpl; [|lia..].
  specialize (Hf x (res_arr (m a))). lia.
Qed.

Lemma at_most_emits {X} p (m : M T E X) :
  emits (λ ev, p ev = false) m → at_most p 0 m.
Proof. intros Hm a. rewrite count_none; [done|apply Hm]. Qed.

Lemma at_most_async p c ev (task : M T E unit) :
  at_most p c task → at_most p (1 + c) (async ev task).
Proof.
  intros Htask a. specialize (Htask a). unfold async.
  destruct (res_out (task a)); simpl; destruct (p ev); lia.
Qed.

Lemma at_most_unwinding {X} p c ev (body : M T E X) :
  p ev = false → at_most p c body → at_most p c (unwinding ev body).
Proof.
  intros Hev Hbody a. specialize (Hbody a). unfold unwinding.
  destruct (res_out (body a)); simpl; try done.
  rewrite count_app. simpl. rewrite Hev. lia.
Qed.

(** The sequential code neither spawns nor joins. *)
Lemma quicksort_seq_no_task p fuel left right :
  (∀ ev, p ev = true → is_spawn ev = true ∨ is_join ev = true) →
  emits (λ ev, p ev = false) (quicksort_seq less leq fuel left right).
Proof.
  intros Hp. apply emits_quicksort_seq; intros;
    (destruct (p _) eqn:Hev; [apply Hp in Hev as [?|?]; done|done]).
Qed.

Lemma pivot_partition_no_task p left right :
  (∀ ev, p ev = true → is_spawn ev = true ∨ is_join ev = true) →
  emits (λ ev, p ev = false) (choose_pivot less left right)
  ∧ ∀ pivot, emits (λ ev, p ev = false) (partition leq left right pivot).
Proof.
  intros Hp. split; [|intros pivot];
    [apply emits_choose_pivot|apply emits_partition]; intros;
    (destruct (p _) eqn:Hev; [apply Hp in Hev as [?|?]; done|done]).
Qed.

(** At most [2 ^ (MAX_DEPTH - depth) - 1] tasks are spawned below a call at
    [depth], whatever the outcome. *)
Lemma spawn_bound cfg fuel : ∀ left right depth,
  depth ≤ MAX_DEPTH cfg →
  at_most is_spawn (2 ^ (MAX_DEPTH cfg - depth) - 1)
    (quicksort_parallel less leq cfg fuel left right depth).
Proof.
  induction fuel as [|fuel IH]; intros left right depth Hdepth.
  { intros a. simpl. pose proof (Z.pow_pos_nonneg 2 (MAX_DEPTH cfg - depth)). lia. }
  assert (0 < 2 ^ (MAX_DEPTH cfg - depth)) as Hpow
    by (apply Z.pow_pos_nonneg; lia).
  simpl.
  destruct ((right - left <=? SEQUENTIAL_THRESHOLD cfg)
            || (depth >=? MAX_DEPTH cfg)) eqn:Hcond.
  { intros a. rewrite count_none; [lia|].
    apply quicksort_seq_no_task. auto. }
  apply orb_false_iff in Hcond as [Hsize Hd].
  destruct (pivot_partition_no_task is_spawn left right) as [Hcp Hpart];
    [auto|].
  set (B := 2 ^ (MAX_DEPTH cfg - (depth + 1)) - 1).
  assert (0 ≤ B) as HB.
  { unfold B. pose proof (Z.pow_pos_nonneg 2 (MAX_DEPTH cfg - (depth + 1))). lia. }
  replace (2 ^ (MAX_DEPTH cfg - depth) - 1) with (0 + (0 + ((1 + B) + B))).
  2:{ unfold B. replace (MAX_DEPTH cfg - depth)
        with (Z.succ (MAX_DEPTH cfg - (depth + 1))) by lia.
      rewrite Z.pow_succ_r by lia. lia. }
  apply at_most_bind; [by apply at_most_emits|intros pivot|lia].
  apply at_most_bind; [by apply at_most_emits|intros i|lia].
  apply at_most_bind; [apply at_most_async, IH; lia|intros fut|lia].
  apply at_most_unwinding; [done|].
  replace B with (B + 0) at 1 by lia.
  apply at_most_bind; [apply IH; lia|intros _|lia].
  intros a. simpl. lia.
Qed.
End Tasks.

(** ** One frame of the parallel sort *)

Section Frame.
Context {T E : Type}.
Variable less : T → T → E + bool.
Variable leq : T → T → E + bool.
Implicit Types (a : list T).

Lemma bind_assoc {X Y W} (m : M T E X) (f : X → M T E Y) (g : Y → M T E W) a :
  (m ≫= λ x, f x ≫= g) a = ((m ≫= f) ≫= g) a.
Proof.
  unfold mbind, M_bind, then_run.
  destruct (res_out (m a)) as [x| | |]; simpl; try done.
  destruct (res_out (f x (res_arr (m a)))) as [y| | |]; simpl; try done.
  by rewrite app_assoc.
Qed.

(** A fork followed by its join, in terms of the runs of its parts. *)
Lemma fork_join_run (m1 : M T E Z) (ml mr : Z → M T E unit)
    (spawn join : Z → event) a :
  (m1 ≫= λ i, fut ← async (spawn i) (ml i);
              unwinding (join i) (mr i;; wait (join i) fut)) a =
    match res_out (m1 a) with
    | Done i =>
        let rl := ml i (res_arr (m1 a)) in
        match res_out rl with
        | Done _ | Raise _ =>
            let rr := mr i (res_arr rl) in
            Res (res_arr rr)
                (res_trace (m1 a) ++ spawn i :: res_trace rl ++ res_trace rr
                   ++ match res_out rr with
                      | Done _ | Raise _ => [join i]
                      | Fault | Timeout => []
                      end)
                (res_out rr)
        | Fault =>
            Res (res_arr rl) (res_trace (m1 a) ++ spawn i :: res_trace rl) Fault
        | Timeout =>
            Res (res_arr rl) (res_trace (m1 a) ++ spawn i :: res_trace rl)
                Timeout
        end
    | Raise e => Res (res_arr (m1 a)) (res_trace (m1 a)) (Raise e)
    | Fault => Res (res_arr (m1 a)) (res_trace (m1 a)) Fault
    | Timeout => Res (res_arr (m1 a)) (res_trace (m1 a)) Timeout
    end.
Proof.
  unfold mbind, M_bind, then_run.
  destruct (res_out (m1 a)) as [i| | |]; simpl; try done.
  unfold async, unwinding, wait, emit.
  destruct (res_out (ml i (res_arr (m1 a)))) as [[]|e| |]; simpl; try done.
  - destruct (res_out (mr i _)) as [[]|e| |] eqn:Hr; simpl; rewrite ?Hr; simpl;
      by rewrite <-?app_assoc, ?app_nil_r.
  - destruct (res_out (mr i _)) as [[]|e'| |] eqn:Hr; simpl; rewrite ?Hr; simpl;
      by rewrite <-?app_assoc, ?app_nil_r.
Qed.

Lemma quicksort_parallel_unfold cfg fuel left right depth :
  quicksort_parallel less leq cfg (S fuel) left right depth =
    if (right - left <=? SEQUENTIAL_THRESHOLD cfg) || (depth >=? MAX_DEPTH cfg)
    then quicksort_seq less leq fuel left right
    else
      pivot ← choose_pivot less left right;
      i ← partition leq left right pivot;
      left_future ←
        async (EvSpawn left (i - 1) (depth + 1))
              (quicksort_parallel less leq cfg fuel left (i - 1) (depth + 1));
      unwinding (EvJoin left (i - 1) (depth + 1))
        (quicksort_parallel less leq cfg fuel (i + 1) right (depth + 1);;
         wait (EvJoin left (i - 1) (depth + 1)) left_future).
Proof. done. Qed.

(** The frame that forks, in terms of the runs of its three parts: pivot
    selection with partition, the spawned left branch and the inline right
    branch. *)
Lemma fork_frame cfg fuel left right depth a :
  (right - left <=? SEQUENTIAL_THRESHOLD cfg) || (depth >=? MAX_DEPTH cfg)
    = false →
  let r1 := (choose_pivot less left right ≫= partition leq left right) a in
  quicksort_parallel less leq cfg (S fuel) left right depth a =
    match res_out r1 with
    | Done i =>
        let spawn := EvSpawn left (i - 1) (depth + 1) in
        let join := EvJoin left (i - 1) (depth + 1) in
        let rl :=
          quicksort_parallel less leq cfg fuel left (i - 1) (depth + 1)
            (res_arr r1) in
        match res_out rl with
        | Done _ | Raise _ =>
            let rr :=
              quicksort_parallel less leq cfg fuel (i + 1) right (depth + 1)
                (res_arr rl) in
            Res (res_arr rr)
                (res_trace r1 ++ spawn :: res_trace rl ++ res_trace rr
                   ++ match res_out rr with
                      | Done _ | Raise _ => [join]
                      | Fault | Timeout => []
                      end)
                (res_out rr)
        | Fault => Res (res_arr rl) (res_trace r1 ++ spawn :: res_trace rl) Fault
        | Timeout =>
            Res (res_arr rl) (res_trace r1 ++ spawn :: res_trace rl) Timeout
        end
    | Raise e => Res (res_arr r1) (res_trace r1) (Raise e)
    | Fault => Res (res_arr r1) (res_trace r1) Fault
    | Timeout => Res (res_arr r1) (res_trace r1) Timeout
    end.
Proof.
  intros Hcond. rewrite quicksort_parallel_unfold, Hcond.
  rewrite bind_assoc.
  apply (fork_join_run
    (choose_pivot less left right ≫= partition leq left right)
    (λ i, quicksort_parallel less leq cfg fuel left (i - 1) (depth + 1))
    (λ i, quicksort_parallel less leq cfg fuel (i + 1) right (depth + 1))
    (λ i, EvSpawn left (i - 1) (depth + 1))
    (λ i, EvJoin left (i - 1) (depth + 1))).
Qed.
(** The base case, and the guard of the parallel sort. *)
Lemma quicksort_seq_base fuel (left right : Z) a :
  right ≤ left →
  quicksort_seq less leq (S fuel) left right a = Res a [] (Done tt).
Proof.
  intros Hlr. simpl. by rewrite (proj2 (Z.geb_le left right) Hlr).
Qed.

Lemma quicksort_parallel_delegates cfg fuel (left right depth : Z) a :
  right - left ≤ SEQUENTIAL_THRESHOLD cfg ∨ MAX_DEPTH cfg ≤ depth →
  quicksort_parallel less leq cfg (S fuel) left right depth a
    = quicksort_seq less leq fuel left right a.
Proof.
  intros Hcond. rewrite quicksort_parallel_unfold.
  replace ((right - left <=? SEQUENTIAL_THRESHOLD cfg)
           || (depth >=? MAX_DEPTH cfg)) with true; [done|].
  symmetry. apply orb_true_iff. destruct Hcond; [left|right]; lia.
Qed.

End Frame.

(** ** Exceptions and joins *)

Section Exceptions.
Context {T E : Type}.
Implicit Types (a : list T) (O : outcome E unit → Prop).

Lemma bind_out {X Y} (m : M T E X) (f : X → M T E Y) a :
  res_out ((m ≫= f) a)
  = match res_out (m a) with
    | Done x => res_out (f x (res_arr (m a)))
    | Raise e => Raise e
    | Fault => Fault
    | Timeout => Timeout
    end.
Proof. unfold mbind, M_bind, then_run. by destruct (res_out (m a)). Qed.

Lemma stops_only_bind {X Y} O (m : M T E X) (f : X → M T E Y) :
  stops_only O m → (∀ x, stops_only O (f x)) → stops_only O (m ≫= f).
Proof.
  intros Hm Hf a. unfold stops_only in *. rewrite bind_out.
  specialize (Hm a). destruct (res_out (m a)) as [x|e| |]; try done.
  apply Hf.
Qed.

Lemma stops_only_ret {X} O (x : X) : stops_only O (mret x : M T E X).
Proof. by intros a. Qed.

Lemma stops_only_emit O ev : stops_only O (emit ev : M T E unit).
Proof. by intros a. Qed.

Lemma stops_only_load O i : O Fault → stops_only O (load i : M T E T).
Proof.
  intros HO a. unfold load. destruct (0 <=? i); [|exact HO].
  destruct (a !! Z.to_nat i); simpl; [exact I|exact HO].
Qed.

Lemma stops_only_store O i x : O Fault → stops_only O (store i x : M T E unit).
Proof.
  intros HO a. unfold store.
  destruct ((0 <=? i) && (i <? Z.of_nat (length a))); [exact I|exact HO].
Qed.

Lemma stops_only_eval {X} O (v : E + X) :
  (∀ e, v = inl e → O (Raise e)) → stops_only O (eval v : M T E X).
Proof. intros Hv a. destruct v as [e|x]; [|done]. simpl. auto. Qed.

Lemma stops_only_swap O i j : O Fault → stops_only O (swap i j : M T E unit).
Proof.
  intros HO. unfold swap.
  apply stops_only_bind; [by apply stops_only_load|intros x].
  apply stops_only_bind; [by apply stops_only_load|intros y].
  apply stops_only_bind; [by apply stops_only_store|intros _].
  apply stops_only_bind; [by apply stops_only_store|intros _].
  apply stops_only_emit.
Qed.

Lemma stops_only_when O (b : bool) (m : M T E unit) :
  stops_only O m → stops_only O (when b m).
Proof. intros Hm. destruct b; [done|apply stops_only_ret]. Qed.

Lemma stops_only_for_loop {S} O (body : Z → S → M T E S) n :
  (∀ j acc, stops_only O (body j acc)) →
  ∀ j acc, stops_only O (for_loop n j body acc).
Proof.
  intros Hbody. induction n as [|n IH]; intros j acc; simpl.
  - apply stops_only_ret.
  - apply stops_only_bind; [apply Hbody|intros acc'; apply IH].
Qed.

Lemma stops_only_async O ev (task : M T E unit) :
  stops_only O task → stops_only O (async ev task).
Proof.
  intros Htask a. specialize (Htask a). unfold async.
  by destruct (res_out (task a)).
Qed.

Lemma stops_only_unwinding {X} O ev (body : M T E X) :
  stops_only O body → stops_only O (unwinding ev body).
Proof.
  intros Hbody a. specialize (Hbody a). unfold unwinding. simpl.
  destruct (res_out (body a)) eqn:Hout; simpl; by rewrite ?Hout.
Qed.

Variable less : T → T → E + bool.
Variable leq : T → T → E + bool.
Variable O : outcome E unit → Prop.
Hypothesis O_fault : O Fault.
Hypothesis O_thrown : ∀ e, thrown less leq e → O (Raise e).

Lemma stops_only_choose_pivot left right :
  stops_only O (choose_pivot less left right).
Proof.
  assert (∀ i j, stops_only O (less_at less i j)) as Hless.
  { intros i j. unfold less_at.
    apply stops_only_bind; [by apply stops_only_load|intros x].
    apply stops_only_bind; [by apply stops_only_load|intros y].
    apply stops_only_bind; [apply stops_only_emit|intros _].
    apply stops_only_eval. intros e He. apply O_thrown. exists x, y. by left. }
  unfold choose_pivot.
  apply stops_only_bind; [apply stops_only_emit|intros _].
  repeat (apply stops_only_bind;
          [first [apply Hless | by apply stops_only_when, stops_only_swap]
          |intros ?]).
  by apply stops_only_load.
Qed.

Lemma stops_only_partition left right p :
  stops_only O (partition leq left right p).
Proof.
  unfold partition, for_range.
  apply stops_only_bind; [|intros i].
  - apply stops_only_for_loop. intros j i.
    apply stops_only_bind; [|intros [|]].
    + unfold leq_pivot.
      apply stops_only_bind; [by apply stops_only_load|intros x].
      apply stops_only_bind; [apply stops_only_emit|intros _].
      apply stops_only_eval. intros e He. apply O_thrown. exists x, p. by right.
    + apply stops_only_bind;
        [by apply stops_only_swap|intros _; apply stops_only_ret].
    + apply stops_only_ret.
  - apply stops_only_bind;
      [by apply stops_only_swap|intros _; apply stops_only_ret].
Qed.

Hypothesis O_timeout : O Timeout.

Lemma stops_only_quicksort_seq fuel : ∀ left right,
  stops_only O (quicksort_seq less leq fuel left right).
Proof.
  induction fuel as [|fuel IH]; intros left right; simpl; [by intros a|].
  destruct (left >=? right); [apply stops_only_ret|].
  apply stops_only_bind; [apply stops_only_choose_pivot|intros p].
  apply stops_only_bind; [apply stops_only_partition|intros i].
  apply stops_only_bind; [apply IH|intros _; apply IH].
Qed.

Lemma stops_only_quicksort_parallel cfg fuel : ∀ left right depth,
  stops_only O (quicksort_parallel less leq cfg fuel left right depth).
Proof.
  induction fuel as [|fuel IH]; intros left right depth; [by intros a|].
  rewrite quicksort_parallel_unfold.
  destruct ((right - left <=? SEQUENTIAL_THRESHOLD cfg)
            || (depth >=? MAX_DEPTH cfg)).
  { apply stops_only_quicksort_seq. }
  apply stops_only_bind; [apply stops_only_choose_pivot|intros p].
  apply stops_only_bind; [apply stops_only_partition|intros i].
  apply stops_only_bind; [apply stops_only_async, IH|intros fut].
  apply stops_only_unwinding.
  apply stops_only_bind; [apply IH|intros _; apply stops_only_emit].
Qed.
End Exceptions.

Section Joins.
Context {T E : Type}.
Variable less : T → T → E + bool.
Variable leq : T → T → E + bool.
Implicit Types (a : list T).

(** An exception that leaves the parallel sort was thrown by a
    comparison. *)
Lemma quicksort_parallel_throws cfg fuel left right depth a e :
  res_out (quicksort_parallel less leq cfg fuel left right depth a) = Raise e →
  thrown less leq e.
Proof.
  intros Hout.
  pose proof (stops_only_quicksort_parallel less leq
    (λ o, match o with Raise e => thrown less leq e | _ => True end)
    I ltac:(done) I cfg fuel left right depth a) as Hstop.
  unfold stops_only in Hstop. by rewrite Hout in Hstop.
Qed.


(** Every task that was spawned has been joined when the call returns,
    normally or by an exception. *)
Lemma join_balance cfg fuel : ∀ left right depth a,
  let r := quicksort_parallel less leq cfg fuel left right depth a in
  returned (res_out r) →
  count is_spawn (res_trace r) = count is_join (res_trace r).
Proof.
  induction fuel as [|fuel IH]; intros left right depth a; [done|].
  destruct ((right - left <=? SEQUENTIAL_THRESHOLD cfg)
            || (depth >=? MAX_DEPTH cfg)) eqn:Hcond.
  { rewrite quicksort_parallel_unfold, Hcond. intros r _.
    rewrite !count_none; [done|..];
      by apply quicksort_seq_no_task; auto. }
  rewrite fork_frame by done. cbv zeta.
  destruct (pivot_partition_no_task less leq is_spawn left right)
    as [Hcp1 Hpart1]; [auto|].
  destruct (pivot_partition_no_task less leq is_join left right)
    as [Hcp2 Hpart2]; [auto|].
  pose proof (emits_bind _ _ _ Hcp1 Hpart1 a) as H1%count_none.
  pose proof (emits_bind _ _ _ Hcp2 Hpart2 a) as H2%count_none.
  destruct (res_out ((choose_pivot less left right
                      ≫= partition leq left right) a))
    as [i|e'| |]; simpl; try done; [|by rewrite H1, H2].
  pose proof (IH left (i - 1) (depth + 1)
    (res_arr ((choose_pivot less left right
               ≫= partition leq left right) a))) as Hl.
  cbv zeta in Hl.
  destruct (res_out (quicksort_parallel less leq cfg fuel left (i - 1) _ _));
    simpl; try done.
  - intros Hret. specialize (Hl I).
    pose proof (IH _ _ _ _ Hret) as Hr. cbv zeta in Hr.
    revert Hret. rewrite !count_app. simpl. rewrite !count_app.
    destruct (res_out (quicksort_parallel less leq cfg fuel (i + 1) _ _ _));
      simpl; try done; lia.
  - intros Hret. specialize (Hl I).
    pose proof (IH _ _ _ _ Hret) as Hr. cbv zeta in Hr.
    revert Hret. rewrite !count_app. simpl. rewrite !count_app.
    destruct (res_out (quicksort_parallel less leq cfg fuel (i + 1) _ _ _));
      simpl; try done; lia.
Qed.
End Joins.

(** ** Footprints: the branches of a fork work on disjoint ranges *)

Section Footprint.
Context {T E : Type}.
Variable less : T → T → E + bool.
Variable leq : T → T → E + bool.
Implicit Types (a : list T).

Lemma within_mono (lo hi lo' hi' : Z) ev :
  lo' ≤ lo → hi ≤ hi' → within lo hi ev → within lo' hi' ev.
Proof. intros Hlo Hhi. destruct ev; simpl; lia. Qed.

Lemma Forall_within_mono (lo hi lo' hi' : Z) tr :
  lo' ≤ lo → hi ≤ hi' → Forall (within lo hi) tr → Forall (within lo' hi') tr.
Proof.
  intros Hlo Hhi Htr. eapply Forall_impl; [exact Htr|].
  intros ev. by apply within_mono.
Qed.

Lemma choose_pivot_within (left right : Z) :
  left ≤ right → emits (within left right) (choose_pivot less left right).
Proof.
  intros Hlr. unfold choose_pivot.
  pose proof (Z.quot_pos (right - left) 2).
  pose proof (Z.quot_le_upper_bound (right - left) 2 (right - left)).
  apply emits_bind; [apply emits_emit; simpl; lia|intros _].
  repeat (apply emits_bind;
          [first [apply emits_less_at | apply emits_when, emits_swap];
           simpl; lia
          |intros ?]).
  apply emits_load.
Qed.

Lemma scan_within (left right : Z) (p : T) (n : nat) : ∀ (i j : Z) a,
  left ≤ i + 1 → i < j → j + Z.of_nat n ≤ right →
  post (for_loop n j
          (λ j i : Z, b ← leq_pivot leq j p;
                      if b : bool then swap (i + 1) j;; mret (i + 1)
                      else mret i) i) a
    (λ o _ tr,
       Forall (within left right) tr
       ∧ match o with
         | Done i' => left ≤ i' + 1 ∧ i' < j + Z.of_nat n
         | _ => True
         end).
Proof.
  induction n as [|n IH]; intros i j a Hi Hij Hj.
  - apply post_ret. split; [constructor|lia].
  - simpl for_loop. apply post_bind, post_bind, post_leq_pivot.
    + intros [|].
      * apply post_bind, post_swap; [|by repeat constructor; simpl; lia].
        intros a1. apply post_ret. eapply post_mono; [apply (IH (i + 1) (j + 1)); lia|].
        intros o _ tr [Htr Ho]. split.
        { repeat constructor; simpl; try lia. done. }
        destruct o; [lia|done..].
      * apply post_ret. eapply post_mono; [apply (IH i (j + 1)); lia|].
        intros o _ tr [Htr Ho]. split.
        { repeat constructor; simpl; try lia. done. }
        destruct o; [lia|done..].
    + intros e. split; [|done]. repeat constructor; simpl; lia.
    + split; [constructor|done].
Qed.

Lemma partition_within (left right : Z) (p : T) a :
  left ≤ right →
  post (partition leq left right p) a
    (λ o _ tr,
       Forall (within left right) tr
       ∧ match o with Done i => left ≤ i ≤ right | _ => True end).
Proof.
  intros Hlr. unfold partition, for_range.
  apply post_bind. eapply post_mono; [apply (scan_within left right); lia|].
  intros o a1 tr1 [Htr1 Ho]. destruct o as [i'| | |]; [|done..].
  apply post_bind, post_swap.
  - intros a2. apply post_ret. split; [|lia].
    rewrite app_nil_r. apply Forall_app. split; [done|].
    repeat constructor; simpl; lia.
  - intros a2. by rewrite app_nil_r.
Qed.

Lemma quicksort_seq_within fuel : ∀ (left right : Z) a,
  Forall (within left right)
    (res_trace (quicksort_seq less leq fuel left right a)).
Proof.
  induction fuel as [|fuel IH]; intros left right a; [constructor|].
  simpl. destruct (left >=? right) eqn:Hcmp; [constructor|].
  change (post
    (pivot ← choose_pivot less left right;
     i ← partition leq left right pivot;
     quicksort_seq less leq fuel left (i - 1);;
     quicksort_seq less leq fuel (i + 1) right) a
    (λ _ _ tr, Forall (within left right) tr)).
  apply post_bind, (post_emits (within left right));
    [apply choose_pivot_within; lia|].
  intros o1 a1 tr1 Htr1. destruct o1 as [p| | |]; [|done..].
  apply post_bind. eapply post_mono; [apply partition_within; lia|].
  intros o2 a2 tr2 [Htr2 Hi]. destruct o2 as [i| | |];
    [|by apply Forall_app..].
  assert (∀ tr, Forall (within left (i - 1)) tr ∨ Forall (within (i + 1) right) tr →
                Forall (within left right) tr) as Hsub.
  { intros tr [?|?]; eapply Forall_within_mono; eauto; lia. }
  apply post_bind. unfold post.
  pose proof (IH left (i - 1) a2) as Hl.
  destruct (res_out (quicksort_seq less leq fuel left (i - 1) a2));
    [|repeat (apply Forall_app; split); auto..].
  pose proof (IH (i + 1) right
    (res_arr (quicksort_seq less leq fuel left (i - 1) a2))) as Hr.
  repeat (apply Forall_app; split); auto.
Qed.

(** Every element that a call of the parallel sort on [left .. right]
    compares or swaps, in any of its branches, has its index in
    [left .. right]. *)
Lemma quicksort_parallel_within cfg fuel :
  0 ≤ SEQUENTIAL_THRESHOLD cfg →
  ∀ (left right depth : Z) a,
    Forall (within left right)
      (res_trace (quicksort_parallel less leq cfg fuel left right depth a)).
Proof.
  intros Hcfg. induction fuel as [|fuel IH]; intros left right depth a;
    [constructor|].
  destruct ((right - left <=? SEQUENTIAL_THRESHOLD cfg)
            || (depth >=? MAX_DEPTH cfg)) eqn:Hcond.
  { rewrite quicksort_parallel_unfold, Hcond. apply quicksort_seq_within. }
  rewrite fork_frame by done. cbv zeta.
  apply orb_false_iff in Hcond as [Hsize _].
  assert (post (choose_pivot less left right ≫= partition leq left right) a
    (λ o _ tr, Forall (within left right) tr
               ∧ match o with Done i => left ≤ i ≤ right | _ => True end))
    as H1.
  { apply post_bind, (post_emits (within left right));
      [apply choose_pivot_within; lia|].
    intros o1 a1 tr1 Htr1. destruct o1 as [p| | |]; [|done..].
    eapply post_mono; [apply partition_within; lia|].
    intros o2 _ tr2 [Htr2 Hi]. split; [by apply Forall_app|done]. }
  unfold post in H1. destruct H1 as [Htr1 Hi].
  destruct (res_out ((choose_pivot less left right
                      ≫= partition leq left right) a))
    as [i| | |]; simpl; [|done..].
  assert (∀ tr, Forall (within left (i - 1)) tr ∨ Forall (within (i + 1) right) tr →
                Forall (within left right) tr) as Hsub.
  { intros tr [?|?]; eapply Forall_within_mono; eauto; lia. }
  pose proof (IH left (i - 1) (depth + 1)
    (res_arr ((choose_pivot less left right
               ≫= partition leq left right) a))) as Hl.
  pose proof (IH (i + 1) right (depth + 1)) as Hr.
  assert (within left right (EvSpawn left (i - 1) (depth + 1))) as Hspawn
    by (simpl; lia).
  assert (within left right (EvJoin left (i - 1) (depth + 1))) as Hjoin
    by (simpl; lia).
  set (rl := quicksort_parallel less leq cfg fuel left (i - 1) _ _) in *.
  specialize (Hr (res_arr rl)).
  set (rr := quicksort_parallel less leq cfg fuel (i + 1) right _ _) in *.
  assert (Forall (within left right)
            (EvSpawn left (i - 1) (depth + 1) :: res_trace rl)) as Hleft
    by (constructor; auto).
  assert (Forall (within left right)
            (res_trace rr ++ match res_out rr with
                             | Done _ | Raise _ =>
                                 [EvJoin left (i - 1) (depth + 1)]
                             | Fault | Timeout => []
                             end)) as Hright.
  { apply Forall_app. split; [auto|].
    destruct (res_out rr); try constructor; try done; constructor. }
  destruct (res_out rl); simpl; apply Forall_app; (split; [done|]);
    try done.
  - apply (Forall_app _ (_ :: _)). by split.
  - apply (Forall_app _ (_ :: _)). by split.
Qed.

(** In a frame that forks around the index [i], the spawned branch only
    touches [left .. i - 1] and the inline branch only [i + 1 .. right]:
    no element is accessed by both, so the two can run concurrently without
    a data race and in any interleaving. *)
Lemma branches_disjoint cfg fuel (left right depth i : Z) a1 a2 :
  0 ≤ SEQUENTIAL_THRESHOLD cfg →
  Forall (within left (i - 1))
    (res_trace (quicksort_parallel less leq cfg fuel left (i - 1) (depth + 1) a1))
  ∧ Forall (within (i + 1) right)
      (res_trace
         (quicksort_parallel less leq cfg fuel (i + 1) right (depth + 1) a2)).
Proof. intros Hcfg. split; by apply quicksort_parallel_within. Qed.
End Footprint.

(** ** Sorting *)

Section Sorting.
Context {T E : Type}.
Variables ltb leb : T → T → bool.
Implicit Types (a pre seg post : list T).

Hypothesis leb_total : ∀ x y, leb x y = true ∨ leb y x = true.
Hypothesis leb_trans : ∀ x y z, leb x y = true → leb y z = true → leb x z = true.

Local Abbreviation ordered := (StronglySorted (λ x y, leb x y = true)).

Lemma wp_done {X} (m : M T E X) a (Q : X → list T → Prop) :
  wp m a Q (λ _, False) → ∃ x a' tr, m a = Res a' tr (Done x) ∧ Q x a'.
Proof.
  unfold wp. destruct (m a) as [a' tr [x|e| |]]; simpl; try done. eauto.
Qed.

Lemma covers_range a (left right : Z) :
  0 ≤ left → left ≤ right + 1 → right < Z.of_nat (length a) →
  covers a (take (Z.to_nat left) a)
    (take (Z.to_nat (right - left + 1)) (drop (Z.to_nat left) a))
    (drop (Z.to_nat (right + 1)) a) left right.
Proof.
  intros Hl Hlr Hr. repeat split.
  - replace (Z.to_nat (right + 1))
      with (Z.to_nat left + Z.to_nat (right - left + 1))%nat by lia.
    by rewrite <-drop_drop, !take_drop.
  - rewrite length_take. lia.
  - rewrite length_take, length_drop. lia.
Qed.

Lemma covers_all a : covers a [] a [] 0 (Z.of_nat (length a) - 1).
Proof. repeat split; [by rewrite app_nil_r|lia]. Qed.

Lemma ordered_short seg : (length seg ≤ 1)%nat → ordered seg.
Proof.
  destruct seg as [|x [|y seg]]; simpl; intros; [constructor| |lia].
  by repeat constructor.
Qed.

Lemma ordered_join (p : T) Ls Gs :
  Forall (λ x, total (E:=E) leb x p = inr true) Ls →
  Forall (λ x, total (E:=E) leb x p = inr false) Gs →
  ordered Ls → ordered Gs → ordered (Ls ++ p :: Gs).
Proof.
  unfold total. intros HLs HGs HsL HsG.
  assert (Forall (λ x, leb p x = true) Gs) as HGs'.
  { eapply Forall_impl; [exact HGs|]. intros x [= Hx].
    destruct (leb_total p x); congruence. }
  apply StronglySorted_app_2; [|done|by constructor].
  intros x1 x2 Hx1 Hx2.
  assert (leb x1 p = true) as Hx1p.
  { rewrite Forall_forall in HLs. by injection (HLs x1 Hx1). }
  apply elem_of_cons in Hx2 as [->|Hx2]; [done|].
  rewrite Forall_forall in HGs'. eauto.
Qed.


(** The parallel sort sorts a range in place. *)
Lemma quicksort_parallel_correct cfg fuel (left right depth : Z) a pre seg post :
  0 ≤ SEQUENTIAL_THRESHOLD cfg →
  covers a pre seg post left right → (S (length seg) < fuel)%nat →
  ∃ seg' tr,
    quicksort_parallel (total (E:=E) ltb) (total leb) cfg fuel left right depth a
      = Res (pre ++ seg' ++ post) tr (Done tt)
    ∧ seg' ≡ₚ seg ∧ ordered seg'.
Proof.
  intros Hcfg Hc Hfuel.
  destruct (wp_done
    (quicksort_parallel (total (E:=E) ltb) (total leb) cfg fuel left right depth)
    a (λ _ a', ∃ seg', a' = pre ++ seg' ++ post ∧ seg' ≡ₚ seg ∧ ordered seg'))
    as ([] & a' & tr & Hrun & seg' & -> & Hperm & Hsort); [|by eauto].
  apply (wp_quicksort_parallel _ _ _ ordered) with (pre := pre) (seg := seg)
    (post := post); try done; eauto using ordered_short, ordered_join.
Qed.

(** The entry call on a vector whose last index is an [int]. *)
Lemma parallel_sort_correct cfg fuel a :
  0 ≤ SEQUENTIAL_THRESHOLD cfg → Z.of_nat (length a) ≤ 2147483648 →
  (S (length a) < fuel)%nat →
  ∃ a' tr,
    parallel_sort (total (E:=E) ltb) (total leb) cfg fuel a = Res a' tr (Done tt)
    ∧ a' ≡ₚ a ∧ ordered a'.
Proof.
  intros Hcfg Hn Hfuel. unfold parallel_sort. rewrite last_index_small by done.
  destruct (quicksort_parallel_correct cfg fuel 0 (Z.of_nat (length a) - 1) 0
    a [] a []) as (a' & tr & Hrun & Hperm & Hsort);
    [done|apply covers_all|done|].
  exists a', tr. by rewrite Hrun, app_nil_r.
Qed.




End Sorting.



(** ** The partition invariant *)

Section PartitionInvariant.
Context {T E : Type}.
Variables ltb leb : T → T → bool.
Implicit Types (a pre body post : list T).

Hypothesis leb_total : ∀ x y, leb x y = true ∨ leb y x = true.

(** Pivot selection leaves the pivot at the end of the range. *)
Lemma choose_pivot_run (left right : Z) a pre seg post :
  covers a pre seg post left right → left ≤ right →
  ∃ body p tr,
    choose_pivot (total (E:=E) ltb) left right a
      = Res (pre ++ (body ++ [p]) ++ post) tr (Done p)
    ∧ body ++ [p] ≡ₚ seg.
Proof.
  intros Hc Hlr.
  destruct (wp_done (choose_pivot (total (E:=E) ltb) left right) a
    (λ p a', ∃ body, a' = pre ++ (body ++ [p]) ++ post ∧ body ++ [p] ≡ₚ seg))
    as (p & a' & tr & Hrun & body & -> & Hperm); [|by eauto 10].
  apply (wp_choose_pivot _ left right a pre seg post); [done..|eauto].
Qed.

(** The partition step splits the range around the pivot. *)
Lemma partition_run (left right : Z) (p : T) a pre body post :
  covers a pre (body ++ [p]) post left right →
  ∃ Ls Gs tr,
    partition (total (E:=E) leb) left right p a
      = Res (pre ++ (Ls ++ p :: Gs) ++ post) tr
            (Done (left + Z.of_nat (length Ls)))
    ∧ Ls ++ Gs ≡ₚ body
    ∧ Forall (λ x, leb x p = true) Ls
    ∧ Forall (λ x, leb x p = false) Gs.
Proof.
  intros Hc.
  destruct (wp_done (partition (total (E:=E) leb) left right p) a
    (λ i a', ∃ Ls Gs, i = left + Z.of_nat (length Ls)
       ∧ a' = pre ++ (Ls ++ p :: Gs) ++ post ∧ Ls ++ Gs ≡ₚ body
       ∧ Forall (λ x, leb x p = true) Ls ∧ Forall (λ x, leb x p = false) Gs))
    as (i & a' & tr & Hrun & Ls & Gs & -> & -> & Hperm & HLs & HGs);
    [|by eauto 10].
  apply (wp_partition _ left right p a pre body post); [done..|].
  intros Ls Gs Hperm HLs HGs. exists Ls, Gs. repeat split; try done.
  - eapply Forall_impl; [exact HLs|]. by intros x [= ->].
  - eapply Forall_impl; [exact HGs|]. by intros x [= ->].
Qed.

(** C2. On a range [left .. right] of at least two elements, pivot selection
    leaves the pivot value at index [right]; the partition step then returns
    an index [i] of the range such that every element at [left .. i - 1] is
    [leb] the pivot, the pivot is [leb] every element at [i + 1 .. right],
    the pivot is at [i], and no element outside the range has changed. *)
Theorem partition_invariant (left right : Z) a :
  0 ≤ left → left < right → right < Z.of_nat (length a) →
  ∃ a1 tr1 pivot a2 tr2 i,
    choose_pivot (total (E:=E) ltb) left right a = Res a1 tr1 (Done pivot)
    ∧ a1 !! Z.to_nat right = Some pivot
    ∧ partition (total (E:=E) leb) left right pivot a1 = Res a2 tr2 (Done i)
    ∧ left ≤ i ≤ right
    ∧ (∀ k, left ≤ k ≤ i - 1 →
            ∃ x, a2 !! Z.to_nat k = Some x ∧ leb x pivot = true)
    ∧ (∀ k, i + 1 ≤ k ≤ right →
            ∃ x, a2 !! Z.to_nat k = Some x ∧ leb pivot x = true)
    ∧ a2 !! Z.to_nat i = Some pivot
    ∧ length a2 = length a1
    ∧ (∀ k : nat, Z.of_nat k < left ∨ right < Z.of_nat k → a2 !! k = a1 !! k).
Proof.
  intros Hl Hlr Hr.
  pose proof (covers_range a left right Hl ltac:(lia) Hr) as Hc.
  set (pre := take (Z.to_nat left) a) in *.
  set (post := drop (Z.to_nat (right + 1)) a) in *.
  destruct (choose_pivot_run left right a pre _ post Hc)
    as (body & p & tr1 & Hrun1 & Hperm1); [lia|].
  destruct Hc as (_ & Hpre & Hseg).
  apply Permutation_length in Hperm1. rewrite length_app in Hperm1.
  simpl in Hperm1.
  destruct (partition_run left right p (pre ++ (body ++ [p]) ++ post)
    pre body post) as (Ls & Gs & tr2 & Hrun2 & Hperm2 & HLs & HGs).
  { repeat split; [done|]. rewrite length_app. simpl. lia. }
  apply Permutation_length in Hperm2. rewrite length_app in Hperm2.
  eexists _, tr1, p, _, tr2, _. split; [exact Hrun1|].
  split; [|split; [exact Hrun2|]].
  { replace (pre ++ (body ++ [p]) ++ post) with ((pre ++ body) ++ p :: post)
      by reassoc.
    replace (Z.to_nat right) with (length (pre ++ body))
      by (rewrite length_app; lia).
    by rewrite lookup_app_r, Nat.sub_diag. }
  split; [lia|]. repeat split.
  - intros k Hk.
    destruct (lookup_lt_is_Some_2 Ls (Z.to_nat (k - left))) as [x Hx]; [lia|].
    exists x. split; [|exact (Forall_lookup_1 _ Ls _ _ HLs Hx)].
    replace (Z.to_nat k) with (length pre + Z.to_nat (k - left))%nat by lia.
    rewrite lookup_app_r, <-app_assoc, lookup_app_l by lia.
    rewrite <-Hx. f_equal. lia.
  - intros k Hk.
    destruct (lookup_lt_is_Some_2 Gs
      (Z.to_nat (k - (left + Z.of_nat (length Ls)) - 1))) as [x Hx]; [lia|].
    exists x. split.
    + replace (pre ++ (Ls ++ p :: Gs) ++ post)
        with ((pre ++ Ls ++ [p]) ++ Gs ++ post) by reassoc.
      rewrite lookup_app_r by (rewrite !length_app; simpl; lia).
      rewrite lookup_app_l by (rewrite !length_app; simpl; lia).
      rewrite <-Hx. f_equal. rewrite !length_app. simpl. lia.
    + pose proof (Forall_lookup_1 _ Gs _ _ HGs Hx) as Hgt. simpl in Hgt.
      destruct (leb_total p x); congruence.
  - replace (pre ++ (Ls ++ p :: Gs) ++ post)
      with ((pre ++ Ls) ++ p :: Gs ++ post) by reassoc.
    replace (Z.to_nat (left + Z.of_nat (length Ls)))
      with (length (pre ++ Ls)) by (rewrite length_app; lia).
    by rewrite lookup_app_r, Nat.sub_diag.
  - repeat (rewrite length_app; simpl). lia.
  - intros k [Hk|Hk].
    + by rewrite !lookup_app_l by lia.
    + rewrite !app_assoc.
      rewrite !lookup_app_r by (rewrite !length_app; simpl; lia).
      f_equal. rewrite !length_app. simpl. lia.
Qed.
End PartitionInvariant.

Lemma partition_invariant_witness :
  ∃ a1 tr1 pivot a2 tr2 i,
    choose_pivot (total (E:=failure) Z.ltb) 0 5 [5; 3; 8; 1; 9; 2]
      = Res a1 tr1 (Done pivot)
    ∧ a1 !! Z.to_nat 5 = Some pivot
    ∧ partition (total (E:=failure) Z.leb) 0 5 pivot a1 = Res a2 tr2 (Done i)
    ∧ 0 ≤ i ≤ 5
    ∧ (∀ k, 0 ≤ k ≤ i - 1 →
            ∃ x, a2 !! Z.to_nat k = Some x ∧ (x <=? pivot) = true)
    ∧ (∀ k, i + 1 ≤ k ≤ 5 →
            ∃ x, a2 !! Z.to_nat k = Some x ∧ (pivot <=? x) = true)
    ∧ a2 !! Z.to_nat i = Some pivot
    ∧ length a2 = length a1
    ∧ (∀ k : nat, Z.of_nat k < 0 ∨ 5 < Z.of_nat k → a2 !! k = a1 !! k).
Proof.
  apply (partition_invariant (E:=failure) Z.ltb Z.leb).
  - intros x y. lia.
  - lia.
  - lia.
  - simpl. lia.
Defined.

(** ** The sequential fallback *)

Section Fallback.
Context {T E : Type}.
Variable less : T → T → E + bool.
Variable leq : T → T → E + bool.
Implicit Types (a : list T).

(** C5. On an input of length [n <= SEQUENTIAL_THRESHOLD] the parallel sort
    is the run of the sequential engine on the same range (one call frame
    deeper): same array, same outcome, same operations. The range is that
    of the entry call, [0 .. last_index], which is the full range
    [0 .. n - 1] for every [n] up to [2^31], so for every [n] below a
    threshold of type [int]. On an input of length 0 or 1 both return at
    once and leave the array as it is. *)
Theorem small_input_runs_sequentially cfg fuel a :
  valid_config cfg →
  (Z.of_nat (length a) ≤ SEQUENTIAL_THRESHOLD cfg →
     parallel_sort less leq cfg (S fuel) a
       = quicksort_seq less leq fuel 0 (last_index a) a)
  ∧ (Z.of_nat (length a) ≤ 2 ^ 31 →
       last_index a = Z.of_nat (length a) - 1)
  ∧ ((length a ≤ 1)%nat →
       parallel_sort less leq cfg (S (S fuel)) a = Res a [] (Done tt)
       ∧ quicksort_seq less leq (S fuel) 0 (Z.of_nat (length a) - 1) a
           = Res a [] (Done tt)).
Proof.
  intros [Hthr Hdepth]. split; [|split].
  - intros Hn. unfold parallel_sort.
    pose proof (last_index_below a).
    apply quicksort_parallel_delegates. lia.
  - apply last_index_small.
  - intros Hn. unfold parallel_sort.
    rewrite last_index_small by lia.
    rewrite quicksort_parallel_delegates by lia.
    split; apply quicksort_seq_base; lia.
Qed.

End Fallback.

Lemma small_input_runs_sequentially_witness :
  (Z.of_nat (length [2; 1]) ≤ SEQUENTIAL_THRESHOLD source_config →
     parallel_sort int_less int_leq source_config 4 [2; 1]
       = quicksort_seq int_less int_leq 3 0 (last_index [2; 1]) [2; 1])
  ∧ (Z.of_nat (length [2; 1]) ≤ 2 ^ 31 →
       last_index [2; 1] = Z.of_nat (length [2; 1]) - 1)
  ∧ ((length [2; 1] ≤ 1)%nat →
       parallel_sort int_less int_leq source_config 5 [2; 1]
         = Res [2; 1] [] (Done tt)
       ∧ quicksort_seq int_less int_leq 4 0 (Z.of_nat (length [2; 1]) - 1) [2; 1]
           = Res [2; 1] [] (Done tt)).
Proof.
  apply (small_input_runs_sequentially int_less int_leq source_config 3 [2; 1]).
  split; simpl; lia.
Defined.


(** C8. Scenario A: on [5; 3; 8; 1; 9; 2] with [SEQUENTIAL_THRESHOLD = 0]
    and [MAX_DEPTH = 4] the parallel sort returns normally and leaves
    [1; 2; 3; 5; 8; 9]. *)
Theorem scenario_A (fuel : nat) :
  (7 < fuel)%nat →
  ∃ tr,
    parallel_sort int_less int_leq
      {| SEQUENTIAL_THRESHOLD := 0; MAX_DEPTH := 4 |} fuel [5; 3; 8; 1; 9; 2]
    = Res [1; 2; 3; 5; 8; 9] tr (Done tt).
Proof.
  intros Hfuel.
  destruct (parallel_sort_correct (E:=failure) Z.ltb Z.leb
    ltac:(intros x y; lia) ltac:(intros x y z; lia)
    {| SEQUENTIAL_THRESHOLD := 0; MAX_DEPTH := 4 |} fuel [5; 3; 8; 1; 9; 2])
    as (a' & tr & Hrun & Hperm & Hsort); [simpl; lia|simpl; lia|simpl; lia|].
  exists tr. change int_less with (total (E:=failure) Z.ltb).
  change int_leq with (total (E:=failure) Z.leb). rewrite Hrun. f_equal.
  assert (AntiSymm (=) (λ x y : Z, (x <=? y) = true)) by (intros x y; lia).
  apply (StronglySorted_unique (λ x y : Z, (x <=? y) = true)); [done| |].
  - repeat (constructor; [|by repeat constructor]). constructor.
  - rewrite Hperm. by apply (bool_decide_unpack _).
Qed.

Lemma scenario_A_witness :
  ∃ tr,
    parallel_sort int_less int_leq
      {| SEQUENTIAL_THRESHOLD := 0; MAX_DEPTH := 4 |} 8 [5; 3; 8; 1; 9; 2]
    = Res [1; 2; 3; 5; 8; 9] tr (Done tt).
Proof. apply (scenario_A 8). lia. Defined.

(** ** Resources *)

Section Cost.
Context {T E : Type}.
Variable leb : T → T → bool.
Implicit Types (a : list T).

Lemma covers_last a pre seg post (left right : Z) (p : T) :
  covers a pre seg post left right → left ≤ right →
  a !! Z.to_nat right = Some p → ∃ body, seg = body ++ [p].
Proof.
  intros (-> & Hpre & Hlen) Hlr Hp.
  destruct seg as [|q body _] using rev_ind; [simpl in Hlen; lia|].
  exists body. f_equal. rewrite length_app in Hlen. simpl in Hlen.
  replace (pre ++ (body ++ [q]) ++ post) with ((pre ++ body) ++ q :: post) in Hp
    by reassoc.
  replace (Z.to_nat right) with (length (pre ++ body)) in Hp
    by (rewrite length_app; lia).
  rewrite lookup_app_r, Nat.sub_diag in Hp by done. simpl in Hp. congruence.
Qed.

(** C6 (amended). On a range [left < right] whose pivot is at [right], the
    partition step (the scan and the placement of the pivot) evaluates
    [arr[j] <= pivot] exactly [right - left] times and calls [std::swap] at
    most [right - left + 1] times; at most [right - left] of these calls
    exchange two distinct positions. *)
Theorem partition_cost (left right : Z) (pivot : T) a :
  0 ≤ left → left < right → right < Z.of_nat (length a) →
  a !! Z.to_nat right = Some pivot →
  ∃ a' tr i,
    partition (total (E:=E) leb) left right pivot a = Res a' tr (Done i)
    ∧ count is_leq tr = right - left
    ∧ count is_swap tr ≤ right - left + 1
    ∧ count is_exchange tr ≤ right - left.
Proof.
  intros Hl Hlr Hr Hp.
  pose proof (covers_range a left right Hl ltac:(lia) Hr) as Hc.
  destruct (covers_last _ _ _ _ _ _ _ Hc ltac:(lia) Hp) as [body Hbody].
  rewrite Hbody in Hc.
  destruct (partition_run (E:=E) leb left right pivot a _ body _ Hc)
    as (Ls & Gs & tr & Hrun & _).
  pose proof (post_partition (total (E:=E) leb) left right pivot a ltac:(lia))
    as Hpost.
  unfold post in Hpost. rewrite Hrun in Hpost. simpl in Hpost.
  eexists _, tr, _. split; [exact Hrun|]. lia.
Qed.
End Cost.

Lemma partition_cost_witness :
  ∃ a' tr i,
    partition (total (E:=failure) Z.leb) 0 5 5 [2; 3; 8; 1; 9; 5]
      = Res a' tr (Done i)
    ∧ count is_leq tr = 5 - 0
    ∧ count is_swap tr ≤ 5 - 0 + 1
    ∧ count is_exchange tr ≤ 5 - 0.
Proof.
  apply (partition_cost (E:=failure) Z.leb 0 5 5 [2; 3; 8; 1; 9; 5]).
  - lia.
  - lia.
  - simpl. lia.
  - reflexivity.
Defined.

(** C6 as stated fails: on the range [0 .. 1] of [7; 7] pivot selection
    keeps the array and the pivot 7 at index 1, and the partition step then
    calls [std::swap] twice, which is more than [right - left = 1]. *)
Lemma partition_swaps_exceed_width :
  let r0 := choose_pivot int_less 0 1 [7; 7] in
  let r := partition int_leq 0 1 7 (res_arr r0) in
  res_out r0 = Done 7
  ∧ res_arr r0 = [7; 7]
  ∧ res_out r = Done 1
  ∧ res_trace r = [EvLeq 0; EvSwap 0 0; EvSwap 1 1]
  ∧ ¬ (count is_swap (res_trace r) ≤ 1 - 0).
Proof. vm_compute. repeat split; try reflexivity. intros H. by apply H. Qed.

Section Pivots.
Context {T E : Type}.
Variable less : T → T → E + bool.
Variable leq : T → T → E + bool.
Implicit Types (a : list T).

(** C7 (amended). Pivot selection is performed only on ranges [left, right]
    with [right - left >= 1] (at least two elements), in the sequential sort
    and, for a valid configuration, in the parallel sort; a call of the
    sequential sort on a range of at most one element returns at once,
    while a call on a range of two or more elements starts with the pivot
    selection on that range. *)
Theorem pivot_selection_ranges cfg fuel (left right depth : Z) a :
  valid_config cfg →
  (∀ l r, EvPivot l r ∈ res_trace (quicksort_seq less leq fuel left right a) →
          1 ≤ r - l)
  ∧ (∀ l r,
       EvPivot l r
         ∈ res_trace (quicksort_parallel less leq cfg fuel left right depth a) →
       1 ≤ r - l)
  ∧ (right - left < 1 →
       quicksort_seq less leq (S fuel) left right a = Res a [] (Done tt))
  ∧ (1 ≤ right - left →
       ∃ tr, res_trace (quicksort_seq less leq (S fuel) left right a)
             = EvPivot left right :: tr).
Proof.
  intros [Hthr _]. repeat split.
  - intros l r Hin.
    assert (emits wide (quicksort_seq less leq fuel left right)) as Hem.
    { apply emits_quicksort_seq; try done. intros ???. simpl. lia. }
    specialize (Hem a). rewrite Forall_forall in Hem. apply (Hem _ Hin).
  - intros l r Hin.
    assert (emits wide (quicksort_parallel less leq cfg fuel left right depth))
      as Hem.
    { apply emits_quicksort_parallel; try done. intros ???. simpl. lia. }
    specialize (Hem a). rewrite Forall_forall in Hem. apply (Hem _ Hin).
  - intros Hlr. apply quicksort_seq_base. lia.
  - intros Hlr. simpl.
    replace (left >=? right) with false by lia.
    unfold choose_pivot. rewrite !bind_trace. simpl. eauto.
Qed.
End Pivots.

Lemma pivot_selection_ranges_witness :
  (∀ l r, EvPivot l r ∈ res_trace (quicksort_seq int_less int_leq 7 0 5
                                     [5; 3; 8; 1; 9; 2]) →
          1 ≤ r - l)
  ∧ (∀ l r,
       EvPivot l r
         ∈ res_trace (quicksort_parallel int_less int_leq source_config 7 0 5 0
                        [5; 3; 8; 1; 9; 2]) →
       1 ≤ r - l)
  ∧ (5 - 0 < 1 →
       quicksort_seq int_less int_leq 8 0 5 [5; 3; 8; 1; 9; 2]
         = Res [5; 3; 8; 1; 9; 2] [] (Done tt))
  ∧ (1 ≤ 5 - 0 →
       ∃ tr, res_trace (quicksort_seq int_less int_leq 8 0 5 [5; 3; 8; 1; 9; 2])
             = EvPivot 0 5 :: tr).
Proof.
  apply (pivot_selection_ranges int_less int_leq source_config 7 0 5 0).
  split; simpl; lia.
Defined.

(** C7 as stated fails: the sequential sort of the two-element range
    [0 .. 1] of [2; 1] performs a pivot selection on it, although
    [right - left = 1 < 2]. *)
Lemma pivot_selection_on_two_elements :
  EvPivot 0 1 ∈ res_trace (quicksort_seq int_less int_leq 3 0 1 [2; 1])
  ∧ ¬ (2 ≤ 1 - 0).
Proof. split; [vm_compute; by left|lia]. Qed.

Section Spawns.
Context {T E : Type}.
Variable less : T → T → E + bool.
Variable leq : T → T → E + bool.
Implicit Types (a : list T).

Lemma emits_mono {X} (P P' : event → Prop) (m : M T E X) :
  emits P m → (∀ ev, P ev → P' ev) → emits P' m.
Proof. intros Hm HP a. eapply Forall_impl; [apply Hm|done]. Qed.

Lemma spawn_depths cfg fuel : ∀ left right depth,
  emits (deeper cfg depth)
    (quicksort_parallel less leq cfg fuel left right depth).
Proof.
  induction fuel as [|fuel IH]; intros left right depth.
  { intros a. constructor. }
  rewrite quicksort_parallel_unfold.
  destruct ((right - left <=? SEQUENTIAL_THRESHOLD cfg)
            || (depth >=? MAX_DEPTH cfg)) eqn:Hcond.
  { by apply emits_quicksort_seq. }
  apply orb_false_iff in Hcond as [_ Hdepth].
  assert (∀ l r, emits (deeper cfg depth)
            (quicksort_parallel less leq cfg fuel l r (depth + 1))) as IH'.
  { intros l r. eapply emits_mono; [apply IH|].
    intros [] ; simpl; try done. lia. }
  apply emits_bind; [by apply emits_choose_pivot|intros p].
  apply emits_bind; [by apply emits_partition|intros i].
  apply emits_bind; [apply emits_async; [simpl; lia|apply IH']|intros fut].
  apply emits_unwinding; [done|].
  apply emits_bind; [apply IH'|intros _; by apply emits_emit].
Qed.

(** C9. For every input and every valid configuration the parallel sort
    spawns at most [2 ^ MAX_DEPTH - 1] tasks in its whole run, whatever the
    comparisons do; this bounds the number of spawned tasks that are alive
    at any instant, on every schedule. Every task is spawned at a depth
    between 1 and [MAX_DEPTH]: one more than its parent's, and never from a
    frame at [MAX_DEPTH]. *)
Theorem spawned_tasks_bounded cfg fuel a :
  valid_config cfg →
  count is_spawn (res_trace (parallel_sort less leq cfg fuel a))
    ≤ 2 ^ MAX_DEPTH cfg - 1
  ∧ (∀ l r d, EvSpawn l r d ∈ res_trace (parallel_sort less leq cfg fuel a) →
              1 ≤ d ≤ MAX_DEPTH cfg).
Proof.
  intros [_ Hdepth]. unfold parallel_sort. split.
  - pose proof (spawn_bound less leq cfg fuel 0 (last_index a) 0
      Hdepth a) as Hb.
    by rewrite Z.sub_0_r in Hb.
  - intros l r d Hin.
    pose proof (spawn_depths cfg fuel 0 (last_index a) 0 a) as Hd.
    rewrite Forall_forall in Hd. specialize (Hd _ Hin). simpl in Hd. lia.
Qed.
End Spawns.

Lemma spawned_tasks_bounded_witness :
  count is_spawn
    (res_trace (parallel_sort int_less int_leq
                  {| SEQUENTIAL_THRESHOLD := 0; MAX_DEPTH := 4 |} 8
                  [5; 3; 8; 1; 9; 2]))
    ≤ 2 ^ 4 - 1
  ∧ (∀ l r d,
       EvSpawn l r d
         ∈ res_trace (parallel_sort int_less int_leq
                        {| SEQUENTIAL_THRESHOLD := 0; MAX_DEPTH := 4 |} 8
                        [5; 3; 8; 1; 9; 2]) →
       1 ≤ d ≤ 4).
Proof.
  apply (spawned_tasks_bounded int_less int_leq
           {| SEQUENTIAL_THRESHOLD := 0; MAX_DEPTH := 4 |} 8 [5; 3; 8; 1; 9; 2]).
  split; simpl; lia.
Defined.

(** ** The coordinator *)

Section Coordinator.
Context {T E : Type}.
Variable less : T → T → E + bool.
Variable leq : T → T → E + bool.
Implicit Types (a : list T).

Lemma fork_condition cfg (left right depth : Z) :
  SEQUENTIAL_THRESHOLD cfg < right - left ∧ depth < MAX_DEPTH cfg →
  (right - left <=? SEQUENTIAL_THRESHOLD cfg) || (depth >=? MAX_DEPTH cfg)
    = false.
Proof. intros [??]. apply orb_false_iff. lia. Qed.

(** C3 (amended). A call of the coordinator on [left .. right] at [depth]
    is the run of the sequential engine on that range, and spawns nothing,
    when [right - left <= SEQUENTIAL_THRESHOLD] (that is, when the range has
    at most [SEQUENTIAL_THRESHOLD + 1] elements) or [depth >= MAX_DEPTH]. In
    every other case it selects a pivot and partitions, spawns the call on
    [left .. i - 1] at [depth + 1], runs the call on [i + 1 .. right] at
    [depth + 1] itself, and joins the spawned task. *)
Theorem fork_rule cfg fuel (left right depth : Z) a :
  let r := quicksort_parallel less leq cfg (S fuel) left right depth a in
  let r1 := (choose_pivot less left right ≫= partition leq left right) a in
  (right - left ≤ SEQUENTIAL_THRESHOLD cfg ∨ MAX_DEPTH cfg ≤ depth →
     r = quicksort_seq less leq fuel left right a
     ∧ count is_spawn (res_trace r) = 0)
  ∧ (SEQUENTIAL_THRESHOLD cfg < right - left ∧ depth < MAX_DEPTH cfg →
     ∀ i, res_out r1 = Done i →
       let rl :=
         quicksort_parallel less leq cfg fuel left (i - 1) (depth + 1)
           (res_arr r1) in
       let rr :=
         quicksort_parallel less leq cfg fuel (i + 1) right (depth + 1)
           (res_arr rl) in
       returned (res_out rl) → returned (res_out rr) →
       r = Res (res_arr rr)
             (res_trace r1
                ++ EvSpawn left (i - 1) (depth + 1) :: res_trace rl
                ++ res_trace rr ++ [EvJoin left (i - 1) (depth + 1)])
             (res_out rr)).
Proof.
  intros r r1. split.
  - intros Hcond. unfold r.
    rewrite quicksort_parallel_delegates by done. split; [done|].
    apply count_none, quicksort_seq_no_task. auto.
  - intros Hcond%fork_condition i Hi rl rr Hl Hr. unfold r.
    rewrite fork_frame by done. fold r1. rewrite Hi. cbv zeta. fold rl.
    destruct (res_out rl); try done; fold rr; by destruct (res_out rr).
Qed.

(** C4 (amended). An exception that leaves the parallel sort is one that a
    comparison threw, and when the sort returns, normally or by an
    exception, every task it spawned has been joined. In a frame that
    forks, a failure of its own pivot selection or partition surfaces, and
    once the spawned branch has finished the outcome of the frame is the
    outcome of its inline branch: a failure of the inline branch surfaces,
    while a failure inside the spawned branch stays in its future, which
    [wait()] does not rethrow. *)
Theorem failure_propagation cfg fuel (left right depth : Z) a :
  let r := quicksort_parallel less leq cfg (S fuel) left right depth a in
  let r1 := (choose_pivot less left right ≫= partition leq left right) a in
  (∀ e, res_out r = Raise e → thrown less leq e)
  ∧ (returned (res_out r) →
       count is_join (res_trace r) = count is_spawn (res_trace r))
  ∧ (SEQUENTIAL_THRESHOLD cfg < right - left ∧ depth < MAX_DEPTH cfg →
       (∀ e, res_out r1 = Raise e → res_out r = Raise e)
       ∧ (∀ i, res_out r1 = Done i →
            let rl :=
              quicksort_parallel less leq cfg fuel left (i - 1) (depth + 1)
                (res_arr r1) in
            let rr :=
              quicksort_parallel less leq cfg fuel (i + 1) right (depth + 1)
                (res_arr rl) in
            returned (res_out rl) → res_out r = res_out rr)).
Proof.
  intros r r1. split; [|split].
  - intros e. apply quicksort_parallel_throws.
  - intros Hret. symmetry. by apply join_balance.
  - intros Hcond%fork_condition. unfold r.
    rewrite fork_frame by done. fold r1. split.
    + intros e ->. done.
    + intros i ->. cbv zeta. intros Hl.
      by destruct (res_out (quicksort_parallel less leq cfg fuel left _ _ _)).
Qed.
End Coordinator.

Lemma fork_rule_witness :
  let cfg := {| SEQUENTIAL_THRESHOLD := 0; MAX_DEPTH := 4 |} in
  let a := [5; 3; 8; 1; 9; 2] in
  let r := quicksort_parallel int_less int_leq cfg 8 0 5 0 a in
  let r1 := (choose_pivot int_less 0 5 ≫= partition int_leq 0 5) a in
  let rl := quicksort_parallel int_less int_leq cfg 7 0 (3 - 1) (0 + 1)
              (res_arr r1) in
  let rr := quicksort_parallel int_less int_leq cfg 7 (3 + 1) 5 (0 + 1)
              (res_arr rl) in
  r = Res (res_arr rr)
        (res_trace r1 ++ EvSpawn 0 (3 - 1) (0 + 1) :: res_trace rl
           ++ res_trace rr ++ [EvJoin 0 (3 - 1) (0 + 1)])
        (res_out rr).
Proof.
  intros cfg a r r1 rl rr.
  apply (proj2 (fork_rule int_less int_leq cfg 7 0 5 0 a)).
  - split; simpl; lia.
  - reflexivity.
  - vm_compute. exact I.
  - vm_compute. exact I.
Defined.

(** C3 as stated fails: with [SEQUENTIAL_THRESHOLD = 1] the range [0 .. 1]
    of [2; 1] has two elements, more than the threshold, and the depth 0 is
    below [MAX_DEPTH = 4]; yet the call is the run of the sequential engine
    and spawns no task. *)
Lemma fork_rule_by_size_fails :
  let cfg := {| SEQUENTIAL_THRESHOLD := 1; MAX_DEPTH := 4 |} in
  let r := quicksort_parallel int_less int_leq cfg 4 0 1 0 [2; 1] in
  valid_config cfg
  ∧ ¬ (range_size 0 1 ≤ SEQUENTIAL_THRESHOLD cfg ∨ MAX_DEPTH cfg ≤ 0)
  ∧ r = quicksort_seq int_less int_leq 3 0 1 [2; 1]
  ∧ count is_spawn (res_trace r) = 0.
Proof.
  repeat split; try (simpl; lia); try reflexivity.
  unfold range_size. simpl. lia.
Qed.

Lemma failure_propagation_witness :
  let cfg := {| SEQUENTIAL_THRESHOLD := 0; MAX_DEPTH := 4 |} in
  let a := [3; 2; 1; 4; 6; 5; 7] in
  let r := quicksort_parallel int_less failing_leq cfg 10 0 6 0 a in
  let r1 := (choose_pivot int_less 0 6 ≫= partition failing_leq 0 6) a in
  let rl := quicksort_parallel int_less failing_leq cfg 9 0 (3 - 1) (0 + 1)
              (res_arr r1) in
  let rr := quicksort_parallel int_less failing_leq cfg 9 (3 + 1) 6 (0 + 1)
              (res_arr rl) in
  res_out r = res_out rr.
Proof.
  intros cfg a r r1 rl rr.
  apply (proj2 (proj2 (proj2 (failure_propagation int_less failing_leq
                                 cfg 9 0 6 0 a)) ltac:(simpl; lia))).
  - reflexivity.
  - vm_compute. exact I.
Defined.

(** C4 as stated fails: sorting [3; 2; 1; 4; 6; 5; 7] with a comparison
    that throws on [1 <= 2], the branch spawned for [0 .. 2] ends with
    [ComparatorFailure]; the sort nevertheless returns normally to its
    caller, and the array it leaves is not sorted. *)
Lemma spawned_failure_is_dropped :
  let cfg := {| SEQUENTIAL_THRESHOLD := 0; MAX_DEPTH := 4 |} in
  let a := [3; 2; 1; 4; 6; 5; 7] in
  let r1 := (choose_pivot int_less 0 6 ≫= partition failing_leq 0 6) a in
  let rl := quicksort_parallel int_less failing_leq cfg 9 0 2 1 (res_arr r1) in
  let r := parallel_sort int_less failing_leq cfg 10 a in
  res_out r1 = Done 3
  ∧ res_out rl = Raise ComparatorFailure
  ∧ res_out r = Done tt
  ∧ res_arr r = [1; 3; 2; 4; 5; 6; 7].
Proof. by vm_compute. Qed.

(** ** What a run keeps: the elements, and everything outside its range *)

Section Kept.
Context {T E : Type}.
Implicit Types (a : list T).

Lemma tracked_same a tr : tracked a a tr.
Proof. by split. Qed.

Lemma tracked_trans a a1 a2 tr1 tr2 :
  tracked a a1 tr1 → tracked a1 a2 tr2 → tracked a a2 (tr1 ++ tr2).
Proof.
  intros [Hp1 Hk1] [Hp2 Hk2]. split; [by rewrite Hp2|].
  intros k Hk. rewrite Hk2, Hk1; [done|..];
    intros i j Hin; apply Hk, elem_of_app; auto.
Qed.

Lemma tracked_more a a' tr ev : tracked a a' tr → tracked a a' (ev :: tr).
Proof.
  intros [Hp Hk]. split; [done|]. intros k Hk'. apply Hk.
  intros i j Hin. apply Hk'. by right.
Qed.

Lemma tracks_ret {X} (x : X) : tracks (mret x : M T E X).
Proof. intros a. apply tracked_same. Qed.

Lemma tracks_bind {X Y} (m : M T E X) (f : X → M T E Y) :
  tracks m → (∀ x, tracks (f x)) → tracks (m ≫= f).
Proof.
  intros Hm Hf a. specialize (Hm a). unfold mbind, M_bind, then_run.
  destruct (res_out (m a)) as [x| | |]; simpl; try done.
  eapply tracked_trans; [exact Hm|apply Hf].
Qed.

Lemma tracks_emit ev : tracks (emit ev : M T E unit).
Proof. intros a. apply tracked_same. Qed.

Lemma tracks_load i : tracks (load i : M T E T).
Proof.
  intros a. unfold load. destruct (0 <=? i); [|apply tracked_same].
  destruct (a !! Z.to_nat i); apply tracked_same.
Qed.

Lemma tracks_eval {X} (v : E + X) : tracks (eval v : M T E X).
Proof. intros a. destruct v; apply tracked_same. Qed.

Lemma tracks_swap i j : tracks (swap i j : M T E unit).
Proof.
  intros a. unfold swap, mbind, M_bind, then_run, load, store, emit.
  destruct (0 <=? i) eqn:Hi; simpl; [|apply tracked_same].
  destruct (a !! Z.to_nat i) as [x|] eqn:Hx; simpl; [|apply tracked_same].
  destruct (0 <=? j) eqn:Hj; simpl; [|apply tracked_same].
  destruct (a !! Z.to_nat j) as [y|] eqn:Hy; simpl; [|apply tracked_same].
  pose proof (lookup_lt_Some _ _ _ Hx). pose proof (lookup_lt_Some _ _ _ Hy).
  replace (i <? Z.of_nat (length a)) with true by lia. simpl.
  rewrite length_insert.
  replace (j <? Z.of_nat (length a)) with true by lia. simpl.
  split; [by apply Permutation_insert_swap|].
  intros k Hk. destruct (Hk i j) as [Hki Hkj]; [by left|].
  rewrite !list_lookup_insert_ne by lia. done.
Qed.

Lemma tracks_when (b : bool) (m : M T E unit) : tracks m → tracks (when b m).
Proof. intros Hm. destruct b; [done|apply tracks_ret]. Qed.

Lemma tracks_for_loop {S} (body : Z → S → M T E S) n :
  (∀ j acc, tracks (body j acc)) → ∀ j acc, tracks (for_loop n j body acc).
Proof.
  intros Hbody. induction n as [|n IH]; intros j acc; simpl.
  - apply tracks_ret.
  - apply tracks_bind; [apply Hbody|intros acc'; apply IH].
Qed.

Lemma tracks_async ev (task : M T E unit) : tracks task → tracks (async ev task).
Proof.
  intros Htask a. specialize (Htask a). unfold async.
  destruct (res_out (task a)); simpl; by apply tracked_more.
Qed.

Lemma tracks_unwinding {X} ev (body : M T E X) :
  tracks body → tracks (unwinding ev body).
Proof.
  intros Hbody a. specialize (Hbody a). unfold unwinding.
  destruct (res_out (body a)); simpl; try done.
  rewrite <-(app_nil_r (res_arr (body a))) at 1.
  destruct Hbody as [Hp Hk]. split; [by rewrite app_nil_r|].
  rewrite app_nil_r. intros k Hk'. apply Hk. intros i j Hin.
  apply Hk', elem_of_app. by left.
Qed.

Variable less : T → T → E + bool.
Variable leq : T → T → E + bool.

Lemma tracks_less_at i j : tracks (less_at less i j).
Proof.
  unfold less_at.
  apply tracks_bind; [apply tracks_load|intros x].
  apply tracks_bind; [apply tracks_load|intros y].
  apply tracks_bind; [apply tracks_emit|intros _]. apply tracks_eval.
Qed.

Lemma tracks_choose_pivot left right : tracks (choose_pivot less left right).
Proof.
  unfold choose_pivot.
  apply tracks_bind; [apply tracks_emit|intros _].
  repeat (apply tracks_bind;
          [first [apply tracks_less_at | apply tracks_when, tracks_swap]
          |intros ?]).
  apply tracks_load.
Qed.

Lemma tracks_partition left right p : tracks (partition leq left right p).
Proof.
  unfold partition, for_range.
  apply tracks_bind; [|intros i].
  - apply tracks_for_loop. intros j i.
    apply tracks_bind; [|intros [|]].
    + unfold leq_pivot.
      apply tracks_bind; [apply tracks_load|intros x].
      apply tracks_bind; [apply tracks_emit|intros _]. apply tracks_eval.
    + apply tracks_bind; [apply tracks_swap|intros _; apply tracks_ret].
    + apply tracks_ret.
  - apply tracks_bind; [apply tracks_swap|intros _; apply tracks_ret].
Qed.

Lemma tracks_quicksort_seq fuel : ∀ left right,
  tracks (quicksort_seq less leq fuel left right).
Proof.
  induction fuel as [|fuel IH]; intros left right; simpl.
  - intros a. apply tracked_same.
  - destruct (left >=? right); [apply tracks_ret|].
    apply tracks_bind; [apply tracks_choose_pivot|intros p].
    apply tracks_bind; [apply tracks_partition|intros i].
    apply tracks_bind; [apply IH|intros _; apply IH].
Qed.

Lemma tracks_quicksort_parallel cfg fuel : ∀ left right depth,
  tracks (quicksort_parallel less leq cfg fuel left right depth).
Proof.
  induction fuel as [|fuel IH]; intros left right depth.
  { intros a. apply tracked_same. }
  rewrite quicksort_parallel_unfold.
  destruct ((right - left <=? SEQUENTIAL_THRESHOLD cfg)
            || (depth >=? MAX_DEPTH cfg)).
  { apply tracks_quicksort_seq. }
  apply tracks_bind; [apply tracks_choose_pivot|intros p].
  apply tracks_bind; [apply tracks_partition|intros i].
  apply tracks_bind; [apply tracks_async, IH|intros fut].
  apply tracks_unwinding.
  apply tracks_bind; [apply IH|intros _; apply tracks_emit].
Qed.

Lemma tracked_outside a a' tr (left right : Z) (k : nat) :
  tracked a a' tr → Forall (within left right) tr →
  Z.of_nat k < left ∨ right < Z.of_nat k → a' !! k = a !! k.
Proof.
  intros [_ Hk] Htr Hout. apply Hk. intros i j Hin.
  rewrite Forall_forall in Htr. specialize (Htr _ Hin). simpl in Htr. lia.
Qed.

(** X2. Whatever the comparisons do and however the run ends, a call of
    the sequential sort on [left .. right] leaves every element outside
    that range where it was, and so does a call of the parallel sort for a
    non-negative [SEQUENTIAL_THRESHOLD]. *)
Theorem outside_untouched cfg fuel (left right depth : Z) a (k : nat) :
  0 ≤ SEQUENTIAL_THRESHOLD cfg →
  Z.of_nat k < left ∨ right < Z.of_nat k →
  res_arr (quicksort_seq less leq fuel left right a) !! k = a !! k
  ∧ res_arr (quicksort_parallel less leq cfg fuel left right depth a) !! k
      = a !! k.
Proof.
  intros Hcfg Hk. split.
  - eapply tracked_outside; [apply tracks_quicksort_seq| |exact Hk].
    apply quicksort_seq_within.
  - eapply tracked_outside; [apply tracks_quicksort_parallel| |exact Hk].
    by apply quicksort_parallel_within.
Qed.

(** X3. Every comparison and every swap of a call of either sort on
    [left .. right], in all its branches and whatever the outcome, is on
    indices of [left .. right], and every range it selects a pivot on or
    spawns a task for lies inside [left .. right] (for the parallel sort,
    with a non-negative [SEQUENTIAL_THRESHOLD]). *)
Theorem accesses_inside_range cfg fuel (left right depth : Z) a :
  0 ≤ SEQUENTIAL_THRESHOLD cfg →
  ∀ ev,
    ev ∈ res_trace (quicksort_seq less leq fuel left right a)
    ∨ ev ∈ res_trace (quicksort_parallel less leq cfg fuel left right depth a) →
    match ev with
    | EvLess i j | EvSwap i j => left ≤ i ≤ right ∧ left ≤ j ≤ right
    | EvLeq j => left ≤ j ≤ right
    | EvPivot l r | EvSpawn l r _ | EvJoin l r _ => left ≤ l ∧ r ≤ right
    end.
Proof.
  intros Hcfg ev [Hin|Hin].
  - pose proof (quicksort_seq_within less leq fuel left right a) as Hall.
    rewrite Forall_forall in Hall. apply (Hall ev Hin).
  - pose proof (quicksort_parallel_within less leq cfg fuel Hcfg
      left right depth a) as Hall.
    rewrite Forall_forall in Hall. apply (Hall ev Hin).
Qed.
End Kept.

Lemma outside_untouched_witness :
  res_arr (quicksort_seq int_less int_leq 4 1 3 [9; 3; 2; 1; 0]) !! 4%nat
    = [9; 3; 2; 1; 0] !! 4%nat
  ∧ res_arr (quicksort_parallel int_less int_leq source_config 4 1 3 0
               [9; 3; 2; 1; 0]) !! 4%nat
    = [9; 3; 2; 1; 0] !! 4%nat.
Proof.
  apply (outside_untouched int_less int_leq source_config 4 1 3 0
           [9; 3; 2; 1; 0] 4); simpl; lia.
Defined.

Lemma accesses_inside_range_witness : within 1 3 (EvLess 2 1).
Proof.
  refine (accesses_inside_range int_less int_leq
            {| SEQUENTIAL_THRESHOLD := 0; MAX_DEPTH := 4 |} 4 1 3 0
            [9; 3; 2; 1; 0] _ (EvLess 2 1) _).
  - simpl. lia.
  - left. apply list_elem_of_In. vm_compute. right. left. reflexivity.
Defined.

(** ** Sorting a range, and inputs that are sorted already *)

Section Ranges.
Context {T E : Type}.
Variables ltb leb : T → T → bool.
Implicit Types (a : list T).

Hypothesis leb_total : ∀ x y, leb x y = true ∨ leb y x = true.
Hypothesis leb_trans : ∀ x y z, leb x y = true → leb y z = true → leb x z = true.

Local Abbreviation ordered := (StronglySorted (λ x y, leb x y = true)).


Hypothesis leb_antisym : ∀ x y, leb x y = true → leb y x = true → x = y.



End Ranges.




(** ** The check of the harness *)

Section Check.
Context {T E : Type}.
Variables ltb leb : T → T → bool.
Implicit Types (a pre seg post : list T).

(** No element is [ltb] its predecessor. *)
Local Abbreviation ascending := (Sorted (λ x y, ltb y x = false)).

Lemma wp_less_at (i j : Z) (x y : T) a (less : T → T → E + bool)
    (Q : bool → list T → Prop) (R : E → Prop) :
  0 ≤ i → 0 ≤ j → a !! Z.to_nat i = Some x → a !! Z.to_nat j = Some y →
  match less x y with inl e => R e | inr b => Q b a end →
  wp (less_at less i j) a Q R.
Proof.
  intros Hi Hj Hx Hy HQ. unfold less_at.
  apply wp_bind, (wp_load i x); [done..|].
  apply wp_bind, (wp_load j y); [done..|].
  by apply wp_bind, wp_emit, wp_eval.
Qed.

Lemma wp_is_sorted_from (n : nat) : ∀ (i : Z) pre seg post,
  Z.of_nat (length pre) = i → length seg = S n →
  wp (is_sorted_from (total (E:=E) ltb) n i) (pre ++ seg ++ post)
     (λ b a', a' = pre ++ seg ++ post ∧ (b = true ↔ ascending seg))
     (λ _, False).
Proof.
  induction n as [|n IH]; intros i pre seg post Hpre Hlen.
  - destruct seg as [|x [|]]; try done. apply wp_ret.
    split; [done|]. split; [by repeat constructor|done].
  - destruct seg as [|x [|y seg]]; try done. simpl in Hlen.
    simpl is_sorted_from.
    apply wp_bind, (wp_less_at (i + 1) i y x); [lia|lia|..].
    { replace (pre ++ (x :: y :: seg) ++ post)
        with ((pre ++ [x]) ++ y :: seg ++ post) by reassoc.
      replace (Z.to_nat (i + 1)) with (length (pre ++ [x]))
        by (rewrite length_app; simpl; lia).
      by rewrite lookup_app_r, Nat.sub_diag. }
    { replace (Z.to_nat i) with (length pre) by lia.
      by rewrite lookup_app_r, Nat.sub_diag. }
    unfold total. destruct (ltb y x) eqn:Hyx.
    + apply wp_ret. split; [done|]. split; [done|].
      intros Hs. apply Sorted_inv in Hs as [_ Hhd].
      apply HdRel_inv in Hhd. congruence.
    + replace (pre ++ (x :: y :: seg) ++ post)
        with ((pre ++ [x]) ++ (y :: seg) ++ post) by reassoc.
      eapply wp_mono; [apply IH|..].
      * rewrite length_app. simpl. lia.
      * simpl. lia.
      * intros b a' [-> Hb]. split; [done|]. rewrite Hb. split.
        -- intros Hs. constructor; [done|by constructor].
        -- intros Hs. by apply Sorted_inv in Hs as [? _].
      * done.
Qed.

Lemma is_sorted_run a :
  ∃ tr b,
    is_sorted (total (E:=E) ltb) a = Res a tr (Done b)
    ∧ (b = true ↔ ascending a).
Proof.
  unfold is_sorted. destruct a as [|x a].
  { exists [], true. split; [done|]. split; [constructor|done]. }
  destruct (wp_done (is_sorted_from (total (E:=E) ltb) (length (x :: a) - 1) 0)
    (x :: a) (λ b a', a' = x :: a ∧ (b = true ↔ ascending (x :: a))))
    as (b & a' & tr & Hrun & -> & Hb); [|by eauto].
  pose proof (wp_is_sorted_from (length a) 0 [] (x :: a) []) as Hwp.
  rewrite app_nil_r in Hwp. simpl in *. rewrite Nat.sub_0_r.
  by apply Hwp.
Qed.

(** X7. On every vector, for a comparison that does not throw,
    [is_sorted] returns without a fault and leaves the vector as it is; it
    answers true exactly when no element is less than its predecessor, so
    always on the empty vector and on a single element. *)
Theorem is_sorted_spec a :
  ∃ tr b,
    is_sorted (total (E:=E) ltb) a = Res a tr (Done b)
    ∧ (b = true ↔ Sorted (λ x y, ltb y x = false) a)
    ∧ ((length a ≤ 1)%nat → b = true).
Proof.
  destruct (is_sorted_run a) as (tr & b & Hrun & Hb).
  exists tr, b. repeat split; try apply Hb; try done.
  intros Hlen. apply Hb.
  destruct a as [|x [|y a]]; [repeat constructor..|simpl in Hlen; lia].
Qed.

Hypothesis leb_total : ∀ x y, leb x y = true ∨ leb y x = true.
Hypothesis leb_trans : ∀ x y z, leb x y = true → leb y z = true → leb x z = true.
Hypothesis ltb_leb : ∀ x y, leb x y = true → ltb y x = false.


End Check.


(** ** The median of three *)

Section Median.
Context {T E : Type}.
Variable ltb : T → T → bool.
Implicit Types (a : list T).

Hypothesis ltb_asym : ∀ x y, ltb x y = true → ltb y x = false.

(** [if (arr[p] < arr[q]) std::swap(arr[k], arr[l])] where [k], [l] are
    [p], [q] in some order: afterwards [arr[p]] is not less than
    [arr[q]]. *)
Lemma wp_compare_swap {X} (p q k l : Z) (u v : T) a (f : unit → M T E X)
    (Q : X → list T → Prop) :
  0 ≤ p → 0 ≤ q → p ≠ q → (k = p ∧ l = q) ∨ (k = q ∧ l = p) →
  a !! Z.to_nat p = Some u → a !! Z.to_nat q = Some v →
  (∀ a',
      a' !! Z.to_nat p = Some (if ltb u v then v else u) →
      a' !! Z.to_nat q = Some (if ltb u v then u else v) →
      (∀ n : nat, n ≠ Z.to_nat p → n ≠ Z.to_nat q → a' !! n = a !! n) →
      wp (f tt) a' Q (λ _, False)) →
  wp (b ← less_at (total (E:=E) ltb) p q; when b (swap k l) ≫= f) a Q
     (λ _, False).
Proof.
  intros Hp Hq Hpq Hkl Hu Hv Hf.
  pose proof (lookup_lt_Some _ _ _ Hu). pose proof (lookup_lt_Some _ _ _ Hv).
  apply wp_bind, (wp_less_at p q u v); [done..|]. unfold total.
  apply wp_bind, wp_when; intros Hb; rewrite Hb in Hf.
  - destruct Hkl as [[-> ->]|[-> ->]].
    + apply (wp_swap p q u v); [done..|]. apply Hf.
      * rewrite list_lookup_insert_ne, list_lookup_insert_eq by lia. done.
      * rewrite list_lookup_insert_eq by (rewrite length_insert; lia). done.
      * intros n ??. by rewrite !list_lookup_insert_ne by lia.
    + apply (wp_swap q p v u); [done..|]. apply Hf.
      * rewrite list_lookup_insert_eq by (rewrite length_insert; lia). done.
      * rewrite list_lookup_insert_ne, list_lookup_insert_eq by lia. done.
      * intros n ??. by rewrite !list_lookup_insert_ne by lia.
  - by apply Hf.
Qed.

(** X9. On a range of at least three elements inside the vector, for an
    [operator<] that is never true both ways, pivot selection rearranges
    only the elements at [left], [mid] and [right], and afterwards the
    pivot at [right] is their median: the element at [left] is not greater
    and the element at [mid] is not less. *)
Theorem median_of_three (left right : Z) a :
  0 ≤ left → left + 2 ≤ right → right < Z.of_nat (length a) →
  let mid := left + (right - left) `quot` 2 in
  ∃ a' tr p lo hi x y z,
    choose_pivot (total (E:=E) ltb) left right a = Res a' tr (Done p)
    ∧ a !! Z.to_nat left = Some x
    ∧ a !! Z.to_nat mid = Some y
    ∧ a !! Z.to_nat right = Some z
    ∧ a' !! Z.to_nat left = Some lo
    ∧ a' !! Z.to_nat mid = Some hi
    ∧ a' !! Z.to_nat right = Some p
    ∧ [lo; hi; p] ≡ₚ [x; y; z]
    ∧ ltb p lo = false
    ∧ ltb hi p = false
    ∧ (∀ n : nat,
         Z.of_nat n ≠ left → Z.of_nat n ≠ mid → Z.of_nat n ≠ right →
         a' !! n = a !! n).
Proof.
  intros Hl Hlr Hr mid.
  assert (left < mid < right) as Hmid.
  { unfold mid. pose proof (Z.quot_lt_upper_bound (right - left) 2 (right - left)).
    pose proof (Z.quot_str_pos (right - left) 2). lia. }
  assert (left + (right - left) `quot` 2 = mid) as Hdef by done.
  clearbody mid.
  destruct (lookup_lt_is_Some_2 a (Z.to_nat left)) as [x Hx]; [lia|].
  destruct (lookup_lt_is_Some_2 a (Z.to_nat mid)) as [y Hy]; [lia|].
  destruct (lookup_lt_is_Some_2 a (Z.to_nat right)) as [z Hz]; [lia|].
  destruct (wp_done (choose_pivot (total (E:=E) ltb) left right) a
    (λ p a', ∃ lo hi,
       a' !! Z.to_nat left = Some lo ∧ a' !! Z.to_nat mid = Some hi
       ∧ a' !! Z.to_nat right = Some p ∧ [lo; hi; p] ≡ₚ [x; y; z]
       ∧ ltb p lo = false ∧ ltb hi p = false
       ∧ (∀ n : nat,
            Z.of_nat n ≠ left → Z.of_nat n ≠ mid → Z.of_nat n ≠ right →
            a' !! n = a !! n)))
    as (p & a' & tr & Hrun & lo & hi & H); [|by eauto 20].
  unfold choose_pivot. apply wp_bind, wp_emit.
  cbv zeta. rewrite Hdef.
  apply (wp_compare_swap mid left left mid y x); [lia|lia|lia|auto|done|done|].
  intros a1 Hm1 Hl1 Ho1.
  assert (a1 !! Z.to_nat right = Some z) as Hr1 by (rewrite Ho1; [done|lia..]).
  eapply (wp_compare_swap right left left right); [lia|lia|lia|auto|done|done|].
  intros a2 Hr2 Hl2 Ho2.
  assert (a2 !! Z.to_nat mid = Some (if ltb y x then x else y)) as Hm2
    by (rewrite Ho2; [done|lia..]).
  eapply (wp_compare_swap mid right mid right); [lia|lia|lia|auto|done|done|].
  intros a3 Hm3 Hr3 Ho3.
  assert (a3 !! Z.to_nat left
          = Some (if ltb z (if ltb y x then y else x) then z
                  else if ltb y x then y else x)) as Hl3
    by (rewrite Ho3; [done|lia..]).
  eapply wp_load; [lia|exact Hr3|].
  eexists _, _. split; [exact Hl3|]. split; [exact Hm3|]. split; [done|].
  assert (∀ u v, ltb u v = true → ltb v u = true → False) as Hno
    by (intros u v Huv Hvu; rewrite (ltb_asym _ _ Huv) in Hvu; done).
  split; [|split; [|split]].
  - repeat match goal with
           | |- context [if ltb ?u ?v then _ else _] => destruct (ltb u v)
           end; solve_Permutation.
  - repeat match goal with
           | |- context [if ltb ?u ?v then _ else _] =>
               let B := fresh "B" in destruct (ltb u v) eqn:B
           end; try done;
      first [by apply ltb_asym | exfalso; eauto].
  - repeat match goal with
           | |- context [if ltb ?u ?v then _ else _] =>
               let B := fresh "B" in destruct (ltb u v) eqn:B
           end; try done;
      first [by apply ltb_asym | exfalso; eauto].
  - intros n ???. rewrite Ho3, Ho2, Ho1 by lia. done.
Qed.
End Median.

Lemma median_of_three_witness :
  ∃ a' tr p lo hi x y z,
    choose_pivot (total (E:=failure) Z.ltb) 0 4 [7; 1; 9; 4; 3]
      = Res a' tr (Done p)
    ∧ [7; 1; 9; 4; 3] !! Z.to_nat 0 = Some x
    ∧ [7; 1; 9; 4; 3] !! Z.to_nat (0 + (4 - 0) `quot` 2) = Some y
    ∧ [7; 1; 9; 4; 3] !! Z.to_nat 4 = Some z
    ∧ a' !! Z.to_nat 0 = Some lo
    ∧ a' !! Z.to_nat (0 + (4 - 0) `quot` 2) = Some hi
    ∧ a' !! Z.to_nat 4 = Some p
    ∧ [lo; hi; p] ≡ₚ [x; y; z]
    ∧ (p <? lo) = false
    ∧ (hi <? p) = false
    ∧ (∀ n : nat,
         Z.of_nat n ≠ 0 → Z.of_nat n ≠ 0 + (4 - 0) `quot` 2 → Z.of_nat n ≠ 4 →
         a' !! n = [7; 1; 9; 4; 3] !! n).
Proof.
  apply (median_of_three (E:=failure) Z.ltb ltac:(intros x y; lia)
           0 4 [7; 1; 9; 4; 3]).
  - lia.
  - lia.
  - simpl. lia.
Defined.

(** ** The number of comparisons of a sort *)

Section Comparisons.
Context {T E : Type}.
Variable less : T → T → E + bool.
Variable leq : T → T → E + bool.
Implicit Types (a : list T).

(** Twice the largest number of pivot comparisons on [m] elements. *)
Local Abbreviation pairs m := (Z.max 0 m * (Z.max 0 m - 1)).

Lemma scan_comparisons (p : T) (n : nat) : ∀ (i j : Z) a,
  post (for_loop n j
          (λ j i : Z, b ← leq_pivot leq j p;
                      if b : bool then swap (i + 1) j;; mret (i + 1)
                      else mret i) i) a
    (λ o _ tr,
       count is_leq tr ≤ Z.of_nat n
       ∧ match o with
         | Done i' => i ≤ i' ≤ i + Z.of_nat n
         | _ => True
         end).
Proof.
  induction n as [|n IH]; intros i j a.
  - apply post_ret. simpl. lia.
  - simpl for_loop. apply post_bind, post_bind, post_leq_pivot;
      [|simpl; lia..].
    intros [|].
    + apply post_bind, post_swap; [|simpl; lia]. intros a1.
      apply post_ret. eapply post_mono; [apply IH|].
      intros o _ tr [Htr Ho]. simpl. split; [lia|].
      destruct o; [lia|done..].
    + apply post_ret. eapply post_mono; [apply IH|].
      intros o _ tr [Htr Ho]. simpl. split; [lia|].
      destruct o; [lia|done..].
Qed.

Lemma pivot_partition_comparisons (left right : Z) a :
  left ≤ right →
  post (choose_pivot less left right ≫= partition leq left right) a
    (λ o _ tr,
       count is_leq tr ≤ right - left
       ∧ match o with Done i => left ≤ i ≤ right | _ => True end).
Proof.
  intros Hlr.
  apply post_bind, (post_emits (λ ev, is_leq ev = false));
    [by apply emits_choose_pivot|].
  intros o1 a1 tr1 Htr1%count_none. destruct o1 as [p| | |];
    [|split; [lia|done]..].
  unfold partition, for_range.
  apply post_bind. eapply post_mono; [apply scan_comparisons|].
  intros o a2 tr2 [Htr2 Ho]. destruct o as [i'| | |];
    [|rewrite count_app; split; [lia|done]..].
  apply post_bind, post_swap.
  - intros a3. apply post_ret. rewrite !count_app. simpl. split; lia.
  - intros a3. rewrite !count_app. simpl. split; [lia|done].
Qed.

Lemma seq_frame fuel (left right : Z) a :
  left < right →
  let r1 := (choose_pivot less left right ≫= partition leq left right) a in
  quicksort_seq less leq (S fuel) left right a =
    match res_out r1 with
    | Done i =>
        let rl := quicksort_seq less leq fuel left (i - 1) (res_arr r1) in
        match res_out rl with
        | Done _ =>
            let rr := quicksort_seq less leq fuel (i + 1) right (res_arr rl) in
            Res (res_arr rr) (res_trace r1 ++ res_trace rl ++ res_trace rr)
                (res_out rr)
        | Raise e => Res (res_arr rl) (res_trace r1 ++ res_trace rl) (Raise e)
        | Fault => Res (res_arr rl) (res_trace r1 ++ res_trace rl) Fault
        | Timeout => Res (res_arr rl) (res_trace r1 ++ res_trace rl) Timeout
        end
    | Raise e => Res (res_arr r1) (res_trace r1) (Raise e)
    | Fault => Res (res_arr r1) (res_trace r1) Fault
    | Timeout => Res (res_arr r1) (res_trace r1) Timeout
    end.
Proof.
  intros Hlr. cbn [quicksort_seq].
  replace (left >=? right) with false by lia.
  rewrite bind_assoc.
  generalize (choose_pivot less left right ≫= partition leq left right).
  intros m1. unfold mbind, M_bind, then_run. cbv zeta.
  destruct (res_out (m1 a)) as [i| | |]; simpl; try done.
  destruct (res_out (quicksort_seq less leq fuel left (i - 1) _))
    as [[]| | |]; simpl; try done.
Qed.

Lemma quicksort_seq_comparisons fuel : ∀ (left right : Z) a,
  2 * count is_leq (res_trace (quicksort_seq less leq fuel left right a))
  ≤ pairs (right - left + 1).
Proof.
  induction fuel as [|fuel IH]; intros left right a; [simpl; nia|].
  destruct (decide (left < right)) as [Hlr|Hlr].
  2:{ rewrite quicksort_seq_base by lia. simpl. nia. }
  rewrite seq_frame by done. cbv zeta.
  pose proof (pivot_partition_comparisons left right a ltac:(lia)) as [H1 Hi].
  destruct (res_out ((choose_pivot less left right
                      ≫= partition leq left right) a)) as [i| | |];
    simpl; [|nia..].
  pose proof (IH left (i - 1)
    (res_arr ((choose_pivot less left right
               ≫= partition leq left right) a))) as Hl.
  set (rl := quicksort_seq less leq fuel left (i - 1) _) in *.
  pose proof (IH (i + 1) right (res_arr rl)) as Hr.
  destruct (res_out rl); simpl; rewrite !count_app; nia.
Qed.

Lemma quicksort_parallel_comparisons cfg fuel :
  0 ≤ SEQUENTIAL_THRESHOLD cfg →
  ∀ (left right depth : Z) a,
    2 * count is_leq
          (res_trace (quicksort_parallel less leq cfg fuel left right depth a))
    ≤ pairs (right - left + 1).
Proof.
  intros Hcfg. induction fuel as [|fuel IH]; intros left right depth a;
    [simpl; nia|].
  destruct ((right - left <=? SEQUENTIAL_THRESHOLD cfg)
            || (depth >=? MAX_DEPTH cfg)) eqn:Hcond.
  { rewrite quicksort_parallel_unfold, Hcond. apply quicksort_seq_comparisons. }
  rewrite fork_frame by done. cbv zeta.
  apply orb_false_iff in Hcond as [Hsize _].
  pose proof (pivot_partition_comparisons left right a ltac:(lia)) as [H1 Hi].
  destruct (res_out ((choose_pivot less left right
                      ≫= partition leq left right) a)) as [i| | |];
    simpl; [|nia..].
  pose proof (IH left (i - 1) (depth + 1)
    (res_arr ((choose_pivot less left right
               ≫= partition leq left right) a))) as Hl.
  set (rl := quicksort_parallel less leq cfg fuel left (i - 1) _ _) in *.
  pose proof (IH (i + 1) right (depth + 1) (res_arr rl)) as Hr.
  set (rr := quicksort_parallel less leq cfg fuel (i + 1) right _ _) in *.
  destruct (res_out rl); simpl; rewrite !count_app; simpl;
    rewrite ?count_app; try nia.
  - destruct (res_out rr); simpl; nia.
  - destruct (res_out rr); simpl; nia.
Qed.

(** X10. On a vector of [n] elements a sort evaluates [arr[j] <= pivot] at
    most [n (n - 1) / 2] times: the sequential sort of the full range, and
    the parallel sort for a non-negative [SEQUENTIAL_THRESHOLD], whatever
    the comparisons answer and however the run ends. *)
Theorem comparisons_at_most_quadratic cfg fuel a :
  0 ≤ SEQUENTIAL_THRESHOLD cfg →
  let n := Z.of_nat (length a) in
  2 * count is_leq
        (res_trace (quicksort_seq less leq fuel 0 (n - 1) a))
    ≤ n * (n - 1)
  ∧ 2 * count is_leq (res_trace (parallel_sort less leq cfg fuel a))
    ≤ n * (n - 1).
Proof.
  intros Hcfg n. unfold parallel_sort.
  pose proof (last_index_below a) as [_ Hr]. fold n in Hr.
  pose proof (quicksort_seq_comparisons fuel 0 (n - 1) a) as Hs.
  pose proof (quicksort_parallel_comparisons cfg fuel Hcfg 0 (last_index a)
                0 a) as Hp.
  replace (n - 1 - 0 + 1) with n in Hs by lia.
  rewrite Z.max_r in Hs by lia. split; [done|]. nia.
Qed.
End Comparisons.

Lemma comparisons_at_most_quadratic_witness :
  2 * count is_leq
        (res_trace (quicksort_seq int_less int_leq 5
                      0 (Z.of_nat (length [3; 1; 2]) - 1) [3; 1; 2]))
    ≤ Z.of_nat (length [3; 1; 2]) * (Z.of_nat (length [3; 1; 2]) - 1)
  ∧ 2 * count is_leq
          (res_trace (parallel_sort int_less int_leq
                        {| SEQUENTIAL_THRESHOLD := 0; MAX_DEPTH := 4 |} 5
                        [3; 1; 2]))
    ≤ Z.of_nat (length [3; 1; 2]) * (Z.of_nat (length [3; 1; 2]) - 1).
Proof.
  apply (comparisons_at_most_quadratic int_less int_leq
           {| SEQUENTIAL_THRESHOLD := 0; MAX_DEPTH := 4 |} 5 [3; 1; 2]).
  simpl. lia.
Defined.

(** ** Equal elements: the deepest recursion *)

Section AllEqual.
Context {T E : Type}.
Variables ltb leb : T → T → bool.
Variable x : T.
Implicit Types (a before after : list T).

Hypothesis leb_refl : leb x x = true.



End AllEqual.


(** ** Comparisons that throw: the sorts still return *)

Section Safety.
Context {T E : Type}.
Variable less : T → T → E + bool.
Variable leq : T → T → E + bool.
Implicit Types (a : list T).





End Safety.



(** ** The two branches of a fork share no element *)

Section Races.
Context {T E : Type}.
Variable less : T → T → E + bool.
Variable leq : T → T → E + bool.
Implicit Types (a : list T).

Lemma touches_within (lo hi : Z) (ev : event) (k : Z) :
  within lo hi ev → touches ev k → lo ≤ k ≤ hi.
Proof. destruct ev; simpl; lia. Qed.

(** X13. No data race in a fork: for a pivot index [i], the task spawned on
    [left .. i - 1] and the call on [i + 1 .. right] that runs beside it
    never read or write a common position of the vector, whatever arrays
    they see and whatever their comparisons do, and neither touches the
    pivot at [i]. *)
Theorem forked_branches_race_free cfg fuel (left right depth i : Z) a1 a2 :
  0 ≤ SEQUENTIAL_THRESHOLD cfg →
  let spawned :=
    res_trace (quicksort_parallel less leq cfg fuel left (i - 1) (depth + 1) a1) in
  let inline :=
    res_trace (quicksort_parallel less leq cfg fuel (i + 1) right (depth + 1) a2) in
  ¬ (∃ ev1 ev2 k, ev1 ∈ spawned ∧ ev2 ∈ inline
                  ∧ touches ev1 k ∧ touches ev2 k)
  ∧ ¬ (∃ ev, (ev ∈ spawned ∨ ev ∈ inline) ∧ touches ev i).
Proof.
  intros Hcfg spawned inline.
  destruct (branches_disjoint less leq cfg fuel left right depth i a1 a2 Hcfg)
    as [Hs Hi].
  fold spawned in Hs. fold inline in Hi. rewrite Forall_forall in Hs, Hi.
  split.
  - intros (ev1 & ev2 & k & Hin1 & Hin2 & Ht1 & Ht2).
    pose proof (touches_within _ _ _ _ (Hs _ Hin1) Ht1).
    pose proof (touches_within _ _ _ _ (Hi _ Hin2) Ht2). lia.
  - intros (ev & [Hin|Hin] & Ht).
    + pose proof (touches_within _ _ _ _ (Hs _ Hin) Ht). lia.
    + pose proof (touches_within _ _ _ _ (Hi _ Hin) Ht). lia.
Qed.
End Races.

Lemma forked_branches_race_free_witness :
  let cfg := {| SEQUENTIAL_THRESHOLD := 0; MAX_DEPTH := 4 |} in
  let spawned :=
    res_trace (quicksort_parallel int_less int_leq cfg 6 0 (2 - 1) (0 + 1)
                 [2; 1; 3; 8; 5; 9]) in
  let inline :=
    res_trace (quicksort_parallel int_less int_leq cfg 6 (2 + 1) 5 (0 + 1)
                 [2; 1; 3; 8; 5; 9]) in
  ¬ (∃ ev1 ev2 k, ev1 ∈ spawned ∧ ev2 ∈ inline
                  ∧ touches ev1 k ∧ touches ev2 k)
  ∧ ¬ (∃ ev, (ev ∈ spawned ∨ ev ∈ inline) ∧ touches ev 2).
Proof.
  apply (forked_branches_race_free int_less int_leq
           {| SEQUENTIAL_THRESHOLD := 0; MAX_DEPTH := 4 |} 6 0 5 0 2
           [2; 1; 3; 8; 5; 9] [2; 1; 3; 8; 5; 9]).
  simpl. lia.
Defined.

(** ** The comparisons of [is_sorted] *)

Section Pass.
Context {T E : Type}.
Variable less : T → T → E + bool.
Implicit Types (a : list T).

(** The comparisons number [i], [i + 1], ..., [i + m - 1] of a pass. *)
Local Abbreviation pairs_from i m :=
  ((λ k, EvLess (k + 1) k) <$> seqZ (Z.of_nat i) (Z.of_nat m)).

Local Abbreviation quiet := (in_order less).

Lemma pairs_from_cons (i m : nat) :
  pairs_from i (S m) = EvLess (Z.of_nat i + 1) (Z.of_nat i) :: pairs_from (S i) m.
Proof.
  rewrite seqZ_cons by lia. rewrite fmap_cons. do 3 f_equal; lia.
Qed.

Lemma less_at_value (i j : Z) (x y : T) a :
  0 ≤ i → 0 ≤ j → a !! Z.to_nat i = Some x → a !! Z.to_nat j = Some y →
  less_at less i j a
  = Res a [EvLess i j]
      match less x y with inl e => Raise e | inr b => Done b end.
Proof.
  intros Hi Hj Hx Hy.
  unfold less_at, mbind, M_bind, then_run, load, emit.
  replace (0 <=? i) with true by lia. rewrite Hx. simpl.
  replace (0 <=? j) with true by lia. rewrite Hy. simpl.
  unfold eval, raise, mret, M_ret. by destruct (less x y).
Qed.

Lemma is_sorted_from_run (n : nat) : ∀ (i : nat) a,
  (n = 0 ∨ i + n < length a)%nat →
  let r := is_sorted_from less n (Z.of_nat i) a in
  res_arr r = a
  ∧ ((res_out r = Done true
      ∧ res_trace r = pairs_from i n
      ∧ ∀ k, (i ≤ k < i + n)%nat → quiet a k)
     ∨ ∃ k x y,
         (i ≤ k < i + n)%nat ∧ a !! k = Some x ∧ a !! S k = Some y
         ∧ (∀ j, (i ≤ j < k)%nat → quiet a j)
         ∧ res_trace r = pairs_from i (S k - i)
         ∧ match less y x with
           | inl e => res_out r = Raise e
           | inr b => b = true ∧ res_out r = Done false
           end).
Proof.
  induction n as [|n IH]; intros i a Hn; cbv zeta.
  { simpl. split; [done|]. left. do 2 (split; [done|]). intros k Hk. lia. }
  destruct Hn as [Hn|Hn]; [done|].
  destruct (lookup_lt_is_Some_2 a i ltac:(lia)) as [x Hx].
  destruct (lookup_lt_is_Some_2 a (S i) ltac:(lia)) as [y Hy].
  change (is_sorted_from less (S n) (Z.of_nat i) a)
    with (then_run (less_at less (Z.of_nat i + 1) (Z.of_nat i) a)
            (λ b : bool, if b then mret false
                         else is_sorted_from less n (Z.of_nat i + 1))).
  rewrite (less_at_value (Z.of_nat i + 1) (Z.of_nat i) y x a);
    [|lia|lia|by replace (Z.to_nat (Z.of_nat i + 1)) with (S i) by lia
     |by rewrite Nat2Z.id].
  assert (pairs_from i (S i - i) = [EvLess (Z.of_nat i + 1) (Z.of_nat i)])
    as Hone.
  { replace (S i - i)%nat with 1%nat by lia. by rewrite pairs_from_cons. }
  destruct (less y x) as [e|[|]] eqn:Hless; simpl.
  - split; [done|]. right. exists i, x, y. rewrite Hless, Hone.
    repeat split; first [done|lia|intros j Hj; lia].
  - split; [done|]. right. exists i, x, y. rewrite Hless, Hone.
    repeat split; first [done|lia|intros j Hj; lia].
  - replace (Z.of_nat i + 1) with (Z.of_nat (S i)) by lia.
    destruct (IH (S i) a ltac:(lia)) as (Harr & Hrun).
    assert (quiet a i) as Hi by (by exists x, y).
    assert (∀ k, (i ≤ k < S i)%nat → quiet a k) as Hfirst.
    { intros k Hk. by replace k with i by lia. }
    destruct (is_sorted_from less n (Z.of_nat (S i)) a) as [a' tr o].
    simpl in *. subst a'.
    destruct Hrun as [(-> & -> & Hquiet)|(k & x' & y' & Hk & Hx' & Hy' & Hquiet & -> & Hstop)].
    + simpl. split; [done|]. left. split; [done|]. split.
      * rewrite pairs_from_cons. do 2 f_equal. lia.
      * intros k Hk. destruct (decide (k = i)) as [->|]; [done|].
        apply Hquiet. lia.
    + assert (∀ j, (i ≤ j < k)%nat → quiet a j) as Hbefore.
      { intros j Hj. destruct (decide (j = i)) as [->|]; [done|].
        apply Hquiet. lia. }
      assert (EvLess (Z.of_nat (S i)) (Z.of_nat i)
                :: pairs_from (S i) (S k - S i) = pairs_from i (S k - i))
        as Htrace.
      { replace (S k - i)%nat with (S (S k - S i)) by lia.
        rewrite pairs_from_cons. do 2 f_equal. lia. }
      destruct (less y' x') as [e|b] eqn:Hless'.
      * rewrite Hstop. simpl. split; [done|]. right. exists k, x', y'.
        rewrite Hless'. repeat split; first [done|lia].
      * destruct Hstop as [-> ->]. simpl. split; [done|]. right.
        exists k, x', y'. rewrite Hless'.
        repeat split; first [done|lia].
Qed.

(** X14. [is_sorted] only reads, and it stops at the first descent:
    whatever [operator<] does, the vector is left as it is, and the
    comparisons made are [arr[1] < arr[0]], [arr[2] < arr[1]], ... in this
    order. Either all [size - 1] of them are made and answer false, and the
    result is true; or the pass ends with the first comparison
    [arr[k + 1] < arr[k]] that is true or throws, and the result is false
    or the exception thrown. *)
Theorem is_sorted_compares_neighbours a :
  let r := is_sorted less a in
  res_arr r = a
  ∧ ((res_out r = Done true
      ∧ res_trace r = adjacent_pairs (length a - 1)
      ∧ ∀ k, (S k < length a)%nat → in_order less a k)
     ∨ ∃ k x y,
         (S k < length a)%nat ∧ a !! k = Some x ∧ a !! S k = Some y
         ∧ (∀ j, (j < k)%nat → in_order less a j)
         ∧ res_trace r = adjacent_pairs (S k)
         ∧ match less y x with
           | inl e => res_out r = Raise e
           | inr b => b = true ∧ res_out r = Done false
           end).
Proof.
  cbv zeta. unfold is_sorted, adjacent_pairs.
  destruct (is_sorted_from_run (length a - 1) 0 a) as [Harr Hrun].
  { destruct a; simpl; lia. }
  split; [done|].
  destruct Hrun as [(Hout & Htr & Hquiet)|(k & x & y & Hk & Hx & Hy & Hquiet & Htr & Hstop)].
  - left. repeat split; [done|done|]. intros k Hk. apply Hquiet. lia.
  - right. exists k, x, y. rewrite Nat.sub_0_r in Htr.
    split; [lia|]. do 2 (split; [done|]). split; [|by split].
    intros j Hj. apply Hquiet. lia.
Qed.
End Pass.

(** ** The partition step keeps the order of the smaller elements *)

Section Order.
Context {T E : Type}.
Variable leb : T → T → bool.
Implicit Types (a pre post Ls Gs rest : list T).

Local Abbreviation smaller p := (filter (λ x, leb x p = true)).
Local Abbreviation larger p := (filter (λ x, leb x p = false)).

Lemma smaller_larger (p : T) (l : list T) : l ≡ₚ smaller p l ++ larger p l.
Proof.
  induction l as [|x l IH]; [done|].
  destruct (leb x p) eqn:Hx.
  - rewrite (filter_cons_True (λ x, leb x p = true) x l),
      (filter_cons_False (λ x, leb x p = false) x l) by congruence.
    simpl. by f_equiv.
  - rewrite (filter_cons_False (λ x, leb x p = true) x l),
      (filter_cons_True (λ x, leb x p = false) x l) by congruence.
    rewrite <-Permutation_middle. by f_equiv.
Qed.

Lemma wp_scan_order (p : T) pre post (Q : Z → list T → Prop) :
  ∀ (n : nat) Ls Gs rest (i j : Z),
    length rest = n →
    i = Z.of_nat (length pre) + Z.of_nat (length Ls) - 1 →
    j = i + 1 + Z.of_nat (length Gs) →
    (∀ Gs',
        Gs' ≡ₚ Gs ++ larger p rest →
        Q (Z.of_nat (length pre)
           + Z.of_nat (length (Ls ++ smaller p rest)) - 1)
          (pre ++ ((Ls ++ smaller p rest) ++ Gs' ++ [p]) ++ post)) →
    wp (for_loop n j
          (λ j i : Z, b ← leq_pivot (total (E:=E) leb) j p;
                      if b : bool then swap (i + 1) j;; mret (i + 1)
                      else mret i) i)
       (pre ++ (Ls ++ Gs ++ rest ++ [p]) ++ post) Q (λ _, False).
Proof.
  intros n. induction n as [|n IH]; intros Ls Gs rest i j Hn Hi Hj HQ.
  - destruct rest; [|done]. simpl. apply wp_ret. subst i.
    specialize (HQ Gs). rewrite !filter_nil, !app_nil_r in HQ.
    by apply HQ.
  - destruct rest as [|x rest]; [done|]. simpl in Hn.
    simpl for_loop.
    apply wp_bind, wp_bind, (wp_leq_pivot (total leb) j x p);
      [lia| |done|].
    { replace (pre ++ (Ls ++ Gs ++ (x :: rest) ++ [p]) ++ post)
        with ((pre ++ Ls ++ Gs) ++ x :: rest ++ [p] ++ post)
        by reassoc.
      replace (Z.to_nat j) with (length (pre ++ Ls ++ Gs))
        by (rewrite !length_app; lia).
      by rewrite lookup_app_r, Nat.sub_diag. }
    intros b [= Hb]. destruct b.
    + apply wp_bind.
      apply (wp_swap_boundary (i + 1) j x pre Ls Gs (rest ++ [p]) post);
        [lia|lia|].
      intros Gs' HGs' Hlen. apply wp_ret.
      replace (pre ++ (Ls ++ x :: Gs' ++ rest ++ [p]) ++ post)
        with (pre ++ ((Ls ++ [x]) ++ Gs' ++ rest ++ [p]) ++ post)
        by reassoc.
      apply IH; [lia|rewrite length_app; simpl; lia|lia|].
      intros Gs'' Hperm.
      specialize (HQ Gs'').
      rewrite (filter_cons_True (λ x, leb x p = true) x rest) in HQ by done.
      rewrite (filter_cons_False (λ x, leb x p = false) x rest) in HQ
        by congruence.
      replace ((Ls ++ [x]) ++ smaller p rest)
        with (Ls ++ x :: smaller p rest) by reassoc.
      apply HQ. by rewrite Hperm, HGs'.
    + apply wp_ret.
      replace (pre ++ (Ls ++ Gs ++ (x :: rest) ++ [p]) ++ post)
        with (pre ++ (Ls ++ (Gs ++ [x]) ++ rest ++ [p]) ++ post)
        by reassoc.
      apply IH; [lia|lia|rewrite length_app; simpl; lia|].
      intros Gs' Hperm.
      specialize (HQ Gs').
      rewrite (filter_cons_False (λ x, leb x p = true) x rest) in HQ
        by congruence.
      rewrite (filter_cons_True (λ x, leb x p = false) x rest) in HQ by done.
      apply HQ. rewrite Hperm. by rewrite <-app_assoc.
Qed.

Lemma wp_partition_order (left right : Z) (p : T) a pre body post
    (Q : Z → list T → Prop) :
  covers a pre (body ++ [p]) post left right →
  (∀ Gs,
      Gs ≡ₚ larger p body →
      Q (left + Z.of_nat (length (smaller p body)))
        (pre ++ (smaller p body ++ p :: Gs) ++ post)) →
  wp (partition (total (E:=E) leb) left right p) a Q (λ _, False).
Proof.
  intros (-> & Hpre & Hlen) HQ. unfold partition, for_range.
  rewrite length_app in Hlen. simpl in Hlen.
  apply wp_bind.
  replace (pre ++ (body ++ [p]) ++ post)
    with (pre ++ ([] ++ [] ++ body ++ [p]) ++ post) by done.
  apply wp_scan_order; [lia|simpl; lia|simpl; lia|].
  intros Gs Hperm. simpl in Hperm. simpl app at 1 2.
  apply wp_bind.
  replace (pre ++ (smaller p body ++ Gs ++ [p]) ++ post)
    with (pre ++ (smaller p body ++ Gs ++ p :: []) ++ post) by done.
  assert (length body = (length (smaller p body) + length Gs)%nat) as Hsplit.
  { rewrite (Permutation_length Hperm).
    rewrite <-length_app. apply Permutation_length, smaller_larger. }
  apply (wp_swap_boundary _ right p pre (smaller p body) Gs [] post).
  { lia. }
  { lia. }
  intros Gs' HGs' _. apply wp_ret.
  replace (Z.of_nat (length pre) + Z.of_nat (length (smaller p body)) - 1 + 1)
    with (left + Z.of_nat (length (smaller p body))) by lia.
  rewrite app_nil_r. apply HQ. by rewrite HGs'.
Qed.

(** X15. The partition step is the Lomuto scheme: on a range
    [left .. right] inside the vector with the pivot at [right], the
    elements [<= pivot] end up in front of the pivot in the order they had,
    the others behind it in some order, the returned index is [left] plus
    the number of elements [<= pivot], and [std::swap] is called once for
    each of these and once for the pivot. *)
Theorem partition_keeps_order_of_smaller (left right : Z) (pivot : T) a :
  0 ≤ left → left ≤ right → right < Z.of_nat (length a) →
  a !! Z.to_nat right = Some pivot →
  let pre := take (Z.to_nat left) a in
  let body := take (Z.to_nat (right - left)) (drop (Z.to_nat left) a) in
  let rest := drop (Z.to_nat (right + 1)) a in
  let Ls := filter (λ x, leb x pivot = true) body in
  ∃ Gs tr,
    partition (total (E:=E) leb) left right pivot a
      = Res (pre ++ (Ls ++ pivot :: Gs) ++ rest) tr
            (Done (left + Z.of_nat (length Ls)))
    ∧ Gs ≡ₚ filter (λ x, leb x pivot = false) body
    ∧ count is_swap tr = Z.of_nat (length Ls) + 1.
Proof.
  intros Hl Hlr Hr Hp pre body rest Ls.
  pose proof (covers_range a left right Hl ltac:(lia) Hr) as Hc.
  destruct (covers_last _ _ _ _ _ _ _ Hc Hlr Hp) as [body' Hbody].
  assert (body' = body) as ->.
  { assert (length body' = Z.to_nat (right - left)) as Hlen.
    { destruct Hc as (_ & _ & Hseg). rewrite Hbody, length_app in Hseg.
      simpl in Hseg. lia. }
    unfold body.
    apply (f_equal (take (Z.to_nat (right - left)))) in Hbody.
    rewrite take_take, Nat.min_l in Hbody by lia.
    by rewrite Hbody, take_app_length'. }
  rewrite Hbody in Hc. fold pre rest in Hc.
  destruct (wp_done (partition (total (E:=E) leb) left right pivot) a
    (λ i a', ∃ Gs, i = left + Z.of_nat (length Ls)
                   ∧ a' = pre ++ (Ls ++ pivot :: Gs) ++ rest
                   ∧ Gs ≡ₚ larger pivot body))
    as (i & a' & tr & Hrun & Gs & -> & -> & HGs).
  { apply (wp_partition_order left right pivot a pre body rest); [done|].
    intros Gs HGs. by exists Gs. }
  pose proof (post_partition (total (E:=E) leb) left right pivot a Hlr)
    as Hpost.
  unfold post in Hpost. rewrite Hrun in Hpost. simpl in Hpost.
  exists Gs, tr. split; [done|]. split; [done|lia].
Qed.
End Order.

Lemma partition_keeps_order_of_smaller_witness :
  ∃ Gs tr,
    partition (total (E:=failure) Z.leb) 1 5 4 [0; 3; 8; 1; 9; 4; 7]
      = Res ([0] ++ ([3; 1] ++ 4 :: Gs) ++ [7]) tr
            (Done (1 + Z.of_nat (length [3; 1])))
    ∧ Gs ≡ₚ [8; 9]
    ∧ count is_swap tr = Z.of_nat (length [3; 1]) + 1.
Proof.
  apply (partition_keeps_order_of_smaller (E:=failure) Z.leb 1 5 4
           [0; 3; 8; 1; 9; 4; 7]).
  - lia.
  - lia.
  - simpl. lia.
  - reflexivity.
Defined.

(** ** The number of pivot selections *)

Section Selections.
Context {T E : Type}.
Variable less : T → T → E + bool.
Variable leq : T → T → E + bool.
Implicit Types (a : list T).

Lemma at_most_emit p ev : at_most p 1 (emit ev : M T E unit).
Proof. intros a. simpl. destruct (p ev); lia. Qed.

Lemma at_most_less_at p (i j : Z) : at_most p 1 (less_at less i j).
Proof.
  unfold less_at.
  apply (at_most_bind p 0 1); [apply at_most_emits, emits_load|intros x|lia].
  apply (at_most_bind p 0 1); [apply at_most_emits, emits_load|intros y|lia].
  apply (at_most_bind p 1 0); [apply at_most_emit|intros _|lia].
  apply at_most_emits, emits_eval.
Qed.

Lemma choose_pivot_selects (left right : Z) :
  at_most is_pivot 1 (choose_pivot less left right)
  ∧ at_most is_less 3 (choose_pivot less left right).
Proof.
  unfold choose_pivot. split.
  - apply (at_most_bind is_pivot 1 0); [apply at_most_emit|intros _|lia].
    apply at_most_emits.
    repeat (apply emits_bind;
            [first [by apply emits_less_at | by apply emits_when, emits_swap]
            |intros ?]).
    apply emits_load.
  - apply (at_most_bind is_less 0 3);
      [by apply at_most_emits, emits_emit|intros _|lia].
    apply (at_most_bind is_less 1 2); [apply at_most_less_at|intros b1|lia].
    apply (at_most_bind is_less 0 2);
      [by apply at_most_emits, emits_when, emits_swap|intros _|lia].
    apply (at_most_bind is_less 1 1); [apply at_most_less_at|intros b2|lia].
    apply (at_most_bind is_less 0 1);
      [by apply at_most_emits, emits_when, emits_swap|intros _|lia].
    apply (at_most_bind is_less 1 0); [apply at_most_less_at|intros b3|lia].
    apply (at_most_bind is_less 0 0);
      [by apply at_most_emits, emits_when, emits_swap|intros _|lia].
    apply at_most_emits, emits_load.
Qed.

Lemma pivot_partition_selects (left right : Z) a :
  let tr := res_trace ((choose_pivot less left right
                        ≫= partition leq left right) a) in
  count is_pivot tr ≤ 1 ∧ count is_less tr ≤ 3.
Proof.
  destruct (choose_pivot_selects left right) as [Hp Hl]. split.
  - apply (at_most_bind is_pivot 1 0); [done| |lia].
    intros p. by apply at_most_emits, emits_partition.
  - apply (at_most_bind is_less 3 0); [done| |lia].
    intros p. by apply at_most_emits, emits_partition.
Qed.

Lemma quicksort_seq_selections fuel : ∀ (left right : Z) a,
  let tr := res_trace (quicksort_seq less leq fuel left right a) in
  count is_pivot tr ≤ Z.max 0 (right - left)
  ∧ count is_less tr ≤ 3 * Z.max 0 (right - left).
Proof.
  induction fuel as [|fuel IH]; intros left right a; [simpl; lia|].
  destruct (decide (left < right)) as [Hlr|Hlr].
  2:{ rewrite quicksort_seq_base by lia. simpl. lia. }
  cbv zeta. rewrite seq_frame by done. cbv zeta.
  pose proof (pivot_partition_comparisons less leq left right a ltac:(lia))
    as [_ Hi].
  pose proof (pivot_partition_selects left right a) as [Hp1 Hl1].
  cbv zeta in Hp1, Hl1.
  destruct (res_out ((choose_pivot less left right
                      ≫= partition leq left right) a)) as [i| | |];
    simpl; [|lia..].
  pose proof (IH left (i - 1)
    (res_arr ((choose_pivot less left right
               ≫= partition leq left right) a))) as [Hpl Hll].
  set (rl := quicksort_seq less leq fuel left (i - 1) _) in *.
  pose proof (IH (i + 1) right (res_arr rl)) as [Hpr Hlr'].
  destruct (res_out rl); simpl; rewrite !count_app; lia.
Qed.

Lemma quicksort_parallel_selections cfg fuel :
  0 ≤ SEQUENTIAL_THRESHOLD cfg →
  ∀ (left right depth : Z) a,
    let tr :=
      res_trace (quicksort_parallel less leq cfg fuel left right depth a) in
    count is_pivot tr ≤ Z.max 0 (right - left)
    ∧ count is_less tr ≤ 3 * Z.max 0 (right - left).
Proof.
  intros Hcfg. induction fuel as [|fuel IH]; intros left right depth a;
    [simpl; lia|].
  destruct ((right - left <=? SEQUENTIAL_THRESHOLD cfg)
            || (depth >=? MAX_DEPTH cfg)) eqn:Hcond.
  { cbv zeta. rewrite quicksort_parallel_unfold, Hcond.
    apply quicksort_seq_selections. }
  cbv zeta. rewrite fork_frame by done. cbv zeta.
  apply orb_false_iff in Hcond as [Hsize _].
  pose proof (pivot_partition_comparisons less leq left right a ltac:(lia))
    as [_ Hi].
  pose proof (pivot_partition_selects left right a) as [Hp1 Hl1].
  cbv zeta in Hp1, Hl1.
  destruct (res_out ((choose_pivot less left right
                      ≫= partition leq left right) a)) as [i| | |];
    simpl; [|lia..].
  pose proof (IH left (i - 1) (depth + 1)
    (res_arr ((choose_pivot less left right
               ≫= partition leq left right) a))) as [Hpl Hll].
  set (rl := quicksort_parallel less leq cfg fuel left (i - 1) _ _) in *.
  pose proof (IH (i + 1) right (depth + 1) (res_arr rl)) as [Hpr Hlr].
  set (rr := quicksort_parallel less leq cfg fuel (i + 1) right _ _) in *.
  destruct (res_out rl); simpl; rewrite !count_app; simpl;
    rewrite ?count_app; try lia.
  - destruct (res_out rr); simpl; lia.
  - destruct (res_out rr); simpl; lia.
Qed.

(** X16. On a vector of [n >= 1] elements a sort selects at most [n - 1]
    pivots, and so evaluates [operator<] at most [3 (n - 1)] times: the
    sequential sort of the full range, and the parallel sort for a
    non-negative [SEQUENTIAL_THRESHOLD], whatever the comparisons answer and
    however the run ends. *)
Theorem selections_at_most_linear cfg fuel a :
  0 ≤ SEQUENTIAL_THRESHOLD cfg → (1 ≤ length a)%nat →
  let n := Z.of_nat (length a) in
  let tr_seq := res_trace (quicksort_seq less leq fuel 0 (n - 1) a) in
  let tr_par := res_trace (parallel_sort less leq cfg fuel a) in
  count is_pivot tr_seq ≤ n - 1 ∧ count is_less tr_seq ≤ 3 * (n - 1)
  ∧ count is_pivot tr_par ≤ n - 1 ∧ count is_less tr_par ≤ 3 * (n - 1).
Proof.
  intros Hcfg Hn n tr_seq tr_par. unfold tr_seq, tr_par, parallel_sort.
  pose proof (last_index_below a) as [_ Hr]. fold n in Hr.
  pose proof (quicksort_seq_selections fuel 0 (n - 1) a) as [H1 H2].
  pose proof (quicksort_parallel_selections cfg fuel Hcfg 0 (last_index a)
                0 a) as [H3 H4].
  cbv zeta in *. lia.
Qed.
End Selections.

Lemma selections_at_most_linear_witness :
  let n := Z.of_nat (length [5; 3; 8; 1; 9; 2]) in
  let tr_seq :=
    res_trace (quicksort_seq int_less int_leq 8 0 (n - 1) [5; 3; 8; 1; 9; 2]) in
  let tr_par :=
    res_trace (parallel_sort int_less int_leq
                 {| SEQUENTIAL_THRESHOLD := 0; MAX_DEPTH := 4 |} 8
                 [5; 3; 8; 1; 9; 2]) in
  count is_pivot tr_seq ≤ n - 1 ∧ count is_less tr_seq ≤ 3 * (n - 1)
  ∧ count is_pivot tr_par ≤ n - 1 ∧ count is_less tr_par ≤ 3 * (n - 1).
Proof.
  apply (selections_at_most_linear int_less int_leq
           {| SEQUENTIAL_THRESHOLD := 0; MAX_DEPTH := 4 |} 8
           [5; 3; 8; 1; 9; 2]).
  - simpl. lia.
  - simpl. lia.
Defined.
